(** * An exhaustive backtracking k-SAT checker and its batch runner

    Shallow embedding of [incremental_cmassman.py]:
    the class [IncrementalkSAT] (constructor, [get_num_vars],
    [is_satisfied], [incremental_search] with its closure [backtrack]),
    [time_solver] and the loop of [run_ksat_cases].

    Python integers are [Z]; the working list [assignment] holds
    [None], [True] or [False] and is a [list (option bool)]; exceptions and
    the mutable list are threaded through a small state-and-error monad.
    The recursion of [backtrack] is general recursion in Python, so the model
    carries a recursion budget and an outcome [Diverge] for an exhausted
    budget; the theorems show which budgets suffice. *)

From Stdlib Require Import ZArith QArith Ascii DecimalString.
From stdpp Require Import base list strings.

Local Open Scope Z_scope.

(** ** Outcomes of a Python computation over a state [S] *)

Inductive exn : Type :=
| ValueError                 (* max() of an empty sequence *)
| IndexError                 (* list index out of range *)
| SystemExit (msg : string). (* sys.exit(msg) *)

Inductive outcome (S A : Type) : Type :=
| Ret (a : A) (s : S)        (* normal return *)
| Raise (e : exn) (s : S)    (* uncaught exception, with the state it left *)
| Diverge.                   (* recursion budget exhausted *)

Arguments Ret {S A} a s.
Arguments Raise {S A} e s.
Arguments Diverge {S A}.

Definition M (S A : Type) : Type := S -> outcome S A.

Definition ret {S A} (a : A) : M S A := fun s => Ret a s.

Definition raise {S A} (e : exn) : M S A := fun s => Raise e s.

Definition bind {S A B} (c : M S A) (k : A -> M S B) : M S B :=
  fun s =>
    match c s with
    | Ret a s' => k a s'
    | Raise e s' => Raise e s'
    | Diverge => Diverge
    end.

Declare Scope py_scope.
Delimit Scope py_scope with py.
Notation "'let!' x ':=' c 'in' k" := (bind c (fun x => k))
  (at level 10, x pattern, c at level 100, k at level 200) : py_scope.
Notation "c ';;;' k" := (bind c (fun _ => k))
  (at level 100, k at level 200, right associativity) : py_scope.
Local Open Scope py_scope.

(** ** Python lists indexed by integers *)

(** An index [i] of a list of length [len] denotes position [i] when
    [0 <= i < len], position [len + i] when [-len <= i < 0], and is out of
    range otherwise. *)
Definition py_index (len : nat) (i : Z) : option nat :=
  if bool_decide (0 <= i < Z.of_nat len) then Some (Z.to_nat i)
  else if bool_decide (- Z.of_nat len <= i < 0) then Some (Z.to_nat (Z.of_nat len + i))
  else None.

(** ** The search engine *)

(** An entry of the working list: [None] is Python's [None] (unassigned). *)
Definition pyval : Type := option bool.

(** Truth value of an entry in a boolean context. *)
Definition truthy (v : pyval) : bool :=
  match v with
  | Some true => true
  | _ => false
  end.

(** Ghost events recorded while the search runs. *)
Inductive event : Type :=
| Enter (index : Z) (snapshot : list pyval)               (* backtrack(index) is called *)
| Leave (index : Z) (result : bool) (snapshot : list pyval) (* backtrack(index) returns *)
| Read (i : Z) (snapshot : list pyval).                   (* is_satisfied evaluates assignment[i] *)

(** The local list [assignment] of [incremental_search] together with the
    ghost log (most recent event first). *)
Record heap : Type := mkHeap {
  assignment : list pyval;
  trace : list event
}.

Definition log (e : event) : M heap unit :=
  fun h => Ret tt (mkHeap (assignment h) (e :: trace h)).

(** [assignment[i]] as an expression, inside [is_satisfied]. *)
Definition getitem (i : Z) : M heap pyval :=
  fun h =>
    match py_index (length (assignment h)) i with
    | Some n =>
        match assignment h !! n with
        | Some v => Ret v (mkHeap (assignment h) (Read i (assignment h) :: trace h))
        | None => Raise IndexError h
        end
    | None => Raise IndexError h
    end.

(** [assignment[i] = v]. *)
Definition setitem (i : Z) (v : pyval) : M heap unit :=
  fun h =>
    match py_index (length (assignment h)) i with
    | Some n => Ret tt (mkHeap (<[n := v]> (assignment h)) (trace h))
    | None => Raise IndexError h
    end.

Module IncrementalkSAT.

(** The object: [self.clauses] and [self.num_vars]. *)
Record t : Type := mk {
  clauses : list (list Z);
  num_vars : Z
}.

(** [max(abs(lit) for clause in self.clauses for lit in clause)];
    [max] of an empty sequence raises [ValueError]. *)
Definition get_num_vars {S} (cls : list (list Z)) : M S Z :=
  match Z.abs <$> concat cls with
  | [] => raise ValueError
  | x :: xs => ret (foldl Z.max x xs)
  end.

(** [__init__]. *)
Definition init {S} (cls : list (list Z)) : M S t :=
  let! n := get_num_vars cls in
  ret (mk cls n).

(** [(lit > 0 and assignment[lit - 1]) or
     (lit < 0 and not assignment[abs(lit) - 1])], as a truth value. *)
Definition literal_holds (lit : Z) : M heap bool :=
  if bool_decide (lit > 0) then
    let! v := getitem (lit - 1) in
    ret (truthy v)
  else if bool_decide (lit < 0) then
    let! v := getitem (Z.abs lit - 1) in
    ret (negb (truthy v))
  else ret false.

(** [any(... for lit in clause)]: stops at the first true literal. *)
Fixpoint any_literal (clause : list Z) : M heap bool :=
  match clause with
  | [] => ret false
  | lit :: rest =>
      let! b := literal_holds lit in
      if b then ret true else any_literal rest
  end.

(** The [for clause in self.clauses] loop of [is_satisfied]. *)
Fixpoint all_clauses (cls : list (list Z)) : M heap bool :=
  match cls with
  | [] => ret true
  | clause :: rest =>
      let! b := any_literal clause in
      if negb b then ret false else all_clauses rest
  end.

Definition is_satisfied (self : t) : M heap bool :=
  all_clauses (clauses self).

(** The closure [backtrack(index)]; [fuel] bounds the nesting of calls. *)
Fixpoint backtrack (fuel : nat) (self : t) (index : Z) : M heap bool :=
  match fuel with
  | O => fun _ => Diverge
  | S fuel' =>
      (fun h => log (Enter index (assignment h)) h) ;;;
      let! result :=
        if bool_decide (index = num_vars self) then is_satisfied self
        else
          setitem index (Some true) ;;;
          let! r := backtrack fuel' self (index + 1) in
          if r then ret true
          else
            setitem index (Some false) ;;;
            let! r := backtrack fuel' self (index + 1) in
            if r then ret true
            else
              setitem index None ;;;
              ret false
      in
      (fun h => log (Leave index result (assignment h)) h) ;;;
      ret result
  end.

(** [assignment = [None] * self.num_vars]. *)
Definition fresh (self : t) : heap :=
  mkHeap (replicate (Z.to_nat (num_vars self)) None) [].

(** The run of [backtrack(0)] on the fresh list, with its final heap. *)
Definition search_run (fuel : nat) (self : t) : outcome heap bool :=
  backtrack fuel self 0 (fresh self).

(** [incremental_search]: the list is local, only the answer gets out. *)
Definition incremental_search {S} (fuel : nat) (self : t) : M S bool :=
  fun s =>
    match search_run fuel self with
    | Ret b _ => if b then Ret true s else Ret false s
    | Raise e _ => Raise e s
    | Diverge => Diverge
    end.

End IncrementalkSAT.

(** ** What the specification says: satisfying assignments *)

(** A total assignment to the variables [1..N] is a list of [N] booleans,
    variable [v] at position [v - 1]. *)

(** A positive literal is true iff its variable is True, a negative literal
    is true iff its variable is False. *)
Definition literal_true (a : list bool) (lit : Z) : Prop :=
  (0 < lit ∧ a !! Z.to_nat (lit - 1) = Some true) ∨
  (lit < 0 ∧ a !! Z.to_nat (Z.abs lit - 1) = Some false).

(** Every clause has at least one true literal. *)
Definition satisfies (a : list bool) (cls : list (list Z)) : Prop :=
  ∀ clause, clause ∈ cls → ∃ lit, lit ∈ clause ∧ literal_true a lit.

Definition satisfiable (N : Z) (cls : list (list Z)) : Prop :=
  ∃ a : list bool, Z.of_nat (length a) = N ∧ satisfies a cls.

(** [N] is the maximum absolute literal value across all clauses. *)
Definition max_magnitude (cls : list (list Z)) (N : Z) : Prop :=
  (∃ clause lit, clause ∈ cls ∧ lit ∈ clause ∧ Z.abs lit = N) ∧
  (∀ clause lit, clause ∈ cls → lit ∈ clause → Z.abs lit <= N).

(** The same, as computations. *)
Definition lit_value (a : list bool) (lit : Z) : bool :=
  if bool_decide (lit > 0) then default false (a !! Z.to_nat (lit - 1))
  else if bool_decide (lit < 0) then negb (default true (a !! Z.to_nat (Z.abs lit - 1)))
  else false.

Definition check (a : list bool) (cls : list (list Z)) : bool :=
  forallb (existsb (lit_value a)) cls.

(** ** Invariants of the working list *)

(** At depth [d] exactly the entries [0..d-1] are assigned. *)
Definition prefix_assigned (N : nat) (d : Z) (buf : list pyval) : Prop :=
  0 <= d <= Z.of_nat N ∧ length buf = N ∧
  ∀ i : nat, (i < N)%nat →
    (Z.of_nat i < d → ∃ b : bool, buf !! i = Some (Some b)) ∧
    (d <= Z.of_nat i → buf !! i = Some None).

Definition event_ok (N : nat) (e : event) : Prop :=
  match e with
  | Enter d snap => prefix_assigned N d snap
  | Leave d r snap =>
      if r then prefix_assigned N (Z.of_nat N) snap else prefix_assigned N d snap
  | Read i snap => prefix_assigned N (Z.of_nat N) snap ∧ 0 <= i < Z.of_nat N
  end.

(** All literals of the engine's clauses lie within its variable count. *)
Definition bounded (self : IncrementalkSAT.t) : Prop :=
  0 <= IncrementalkSAT.num_vars self ∧
  ∀ clause lit, clause ∈ IncrementalkSAT.clauses self → lit ∈ clause →
    Z.abs lit <= IncrementalkSAT.num_vars self.

(** The working list at depth [length p]: the choices [p] made so far,
    followed by [k] unassigned entries. *)
Definition shape (p : list bool) (k : nat) : list pyval :=
  (Some <$> p) ++ replicate k None.

(** ** The batch runner *)

(** One parsed problem: the dictionary that [parse_ksat_cnf] builds, with
    the header's counts, the clauses and the label of the comment line
    (['S'], ['U'], any other text, or [None]). *)
Record problem : Type := mkProblem {
  num_vars : Z;
  num_clauses : Z;
  clauses : list (list Z);
  satisfiability : option string
}.

(** What the runner prints. *)
Inductive line : Type :=
| StatusLine (vars : Z) (len_clauses : Z) (elapsed : Q) (solver : bool)
    (expected : option string)
| MismatchLine (solver : bool) (expected : option string).

(** What the runner writes to the output file. *)
Inductive csv_row : Type :=
| HeaderRow (cells : list string)
| ResultRow (vars : Z) (n_clauses : Z) (elapsed : Q) (solver : bool)
    (expected : option string).

(** The world around the runner: how often [time.time()] was read, the
    printed lines and the rows of the output file, oldest first. *)
Record world : Type := mkWorld {
  ticks : nat;
  stdout : list line;
  csv : list csv_row
}.

(** [time.time()]: the wall clock is an oracle, [clock n] being its [n]-th
    reading. Python documents that a later reading can be lower than an
    earlier one when the system clock is set back. Seconds are rationals:
    the sign of a difference of two floats is the sign of the exact
    difference. *)
Definition time_time (clock : nat → Q) : M world Q :=
  fun w => Ret (clock (ticks w)) (mkWorld (S (ticks w)) (stdout w) (csv w)).

Definition print (l : line) : M world unit :=
  fun w => Ret tt (mkWorld (ticks w) (stdout w ++ [l]) (csv w)).

Definition writerow (r : csv_row) : M world unit :=
  fun w => Ret tt (mkWorld (ticks w) (stdout w) (csv w ++ [r])).

(** [open(output_file, mode='w')] empties the file. *)
Definition open_w : M world unit :=
  fun w => Ret tt (mkWorld (ticks w) (stdout w) []).

Definition time_solver (fuel : nat) (clock : nat → Q) (cls : list (list Z))
  : M world (Q * bool) :=
  let! solver := IncrementalkSAT.init cls in
  let! start_time := time_time clock in
  let! satisfiable := IncrementalkSAT.incremental_search fuel solver in
  let! end_time := time_time clock in
  ret ((end_time - start_time)%Q, satisfiable).

(** The three lists [sizes], [times], [answers] of [run_ksat_cases]. *)
Record results : Type := mkResults {
  sizes : list Z;
  times : list Q;
  answers : list bool
}.

(** [(solver_result and satisfiability == 'U') or
     (not solver_result and satisfiability == 'S')]. *)
Definition mismatch (solver_result : bool) (label : option string) : bool :=
  (solver_result && bool_decide (label = Some "U"%string))
  || (negb solver_result && bool_decide (label = Some "S"%string)).

Definition header : list string :=
  ["Number of Variables"; "Number of Clauses"; "Time (seconds)";
   "Satisfiable (Solver)"; "Expected"]%string.

(** The body of the loop [for problem in problems]. *)
Definition run_problem (fuel : nat) (clock : nat → Q) (p : problem) (acc : results)
  : M world results :=
  let! timed := time_solver fuel clock (clauses p) in
  let elapsed_time := fst timed in
  let solver_result := snd timed in
  let acc' := mkResults (sizes acc ++ [num_vars p])
                        (times acc ++ [elapsed_time])
                        (answers acc ++ [solver_result]) in
  print (StatusLine (num_vars p) (Z.of_nat (length (clauses p))) elapsed_time
           solver_result (satisfiability p)) ;;;
  writerow (ResultRow (num_vars p) (num_clauses p) elapsed_time solver_result
              (satisfiability p)) ;;;
  if mismatch solver_result (satisfiability p) then
    print (MismatchLine solver_result (satisfiability p)) ;;;
    raise (SystemExit "Stopping the program due to mismatched results.")
  else ret acc'.

Fixpoint run_loop (fuel : nat) (clock : nat → Q) (problems : list problem)
  (acc : results) : M world results :=
  match problems with
  | [] => ret acc
  | p :: rest =>
      let! acc' := run_problem fuel clock p acc in
      run_loop fuel clock rest acc'
  end.

(** [run_ksat_cases], from the list that [parse_ksat_cnf(file_name)]
    returned. *)
Definition run_ksat_cases (fuel : nat) (clock : nat → Q) (problems : list problem)
  : M world (list Z * list Q * list bool) :=
  open_w ;;;
  writerow (HeaderRow header) ;;;
  let! acc := run_loop fuel clock problems (mkResults [] [] []) in
  ret (sizes acc, times acc, answers acc).

(** ** Vocabulary of the runner's specification *)

(** The boolean that the engine built from [cls] answers, when it does. *)
Definition solver_answer (fuel : nat) (cls : list (list Z)) : option bool :=
  match (let! solver := IncrementalkSAT.init cls in
         IncrementalkSAT.incremental_search fuel solver) tt with
  | Ret b _ => Some b
  | _ => None
  end.

Inductive expectation : Type := Satisfiable | Unsatisfiable | Unknown.

(** The expected label that the text of a problem stands for. *)
Definition expectation_of (label : option string) : expectation :=
  if bool_decide (label = Some "S"%string) then Satisfiable
  else if bool_decide (label = Some "U"%string) then Unsatisfiable
  else Unknown.

(** The solver's answer contradicts the expected label. *)
Definition contradicts (b : bool) (e : expectation) : Prop :=
  (b = true ∧ e = Unsatisfiable) ∨ (b = false ∧ e = Satisfiable).

(** The elapsed times of [n] solver runs in a row, the first reading of the
    clock being number [t]. *)
Fixpoint elapsed_times (clock : nat → Q) (t n : nat) : list Q :=
  match n with
  | O => []
  | S n' => (clock (S t) - clock t)%Q :: elapsed_times clock (S (S t)) n'
  end.

(** The Result Record of problem [p] with elapsed time [e] and answer [b]. *)
Definition record (p : problem) (e : Q) (b : bool) : csv_row :=
  ResultRow (num_vars p) (num_clauses p) e b (satisfiability p).

Definition status (p : problem) (e : Q) (b : bool) : line :=
  StatusLine (num_vars p) (Z.of_nat (length (clauses p))) e b (satisfiability p).

(** The Result Record of a problem carries the problem's own counts. *)
Definition row_of (p : problem) (r : csv_row) : Prop :=
  ∃ e b, r = record p e b.

(** The solver answers [b] on problem [p] and [b] does not contradict the
    label of [p]. *)
Definition consistent (fuel : nat) (p : problem) (b : bool) : Prop :=
  solver_answer fuel (clauses p) = Some b
  ∧ ¬ contradicts b (expectation_of (satisfiability p)).

(** Two inputs of the examples: a problem whose header declares five
    variables while its clauses use one, and a clock that is set back
    after its first reading. *)
Definition five_declared : problem := mkProblem 5 1 [[1]] None.

(** Three more problems of the examples: a satisfiable one labelled ['S'],
    a contradiction labelled ['S'], and one with two variables. *)
Definition unit_S : problem := mkProblem 1 1 [[1]] (Some "S"%string).

Definition contradiction_S : problem := mkProblem 1 2 [[1]; [-1]] (Some "S"%string).

Definition two_vars_S : problem := mkProblem 2 2 [[1; 2]; [-1; -2]] (Some "S"%string).

Definition set_back_clock (n : nat) : Q :=
  match n with
  | O => 5%Q
  | S _ => 3%Q
  end.

(** Records and status lines of consecutive problems. *)
Fixpoint zip3 {A} (f : problem → Q → bool → A) (ps : list problem) (es : list Q)
  (bs : list bool) : list A :=
  match ps, es, bs with
  | p :: ps', e :: es', b :: bs' => f p e b :: zip3 f ps' es' bs'
  | _, _, _ => []
  end.

(** ** The parser *)

(** [parse_ksat_cnf] from the rows that [csv.reader] yields, each a list of
    cells. The conversion [int] of a cell is a parameter: [int s = None]
    when Python's [int(s)] raises [ValueError]. *)

(** The exceptions that end a parse. *)
Inductive parse_error : Type :=
| BadInt        (* ValueError: int() of a cell that is no integer *)
| ShortRow      (* IndexError: row[2] or row[3] of a short problem line *)
| NoHeader.     (* UnboundLocalError: num_clauses read before any problem line *)

(** The local variables of the loop: [problems], [current_clauses],
    [satisfiability], and [num_vars], [num_clauses], unbound before the first
    problem line. *)
Record parser_state : Type := mkParser {
  parsed : list problem;
  collecting : list (list Z);
  pending : option string;
  declared : option (Z * Z)
}.

(** [s.startswith(c)] for a one-character [c]. *)
Definition starts_with (c : Ascii.ascii) (s : string) : bool :=
  match s with
  | String a _ => Ascii.eqb a c
  | EmptyString => false
  end.

(** [[element for element in row if element]]. *)
Definition cells (row : list string) : list string :=
  List.filter (λ e, negb (String.eqb e "")) row.

(** [[int(lit) for lit in row if lit != '0']]. *)
Definition clause_of (int : string → option Z) (row : list string) : option (list Z) :=
  mapM int (List.filter (λ e, negb (String.eqb e "0")) row).

(** The body of [for row in csv_reader]. *)
Definition parse_row (int : string → option Z) (row0 : list string) (st : parser_state)
  : parse_error + parser_state :=
  let row := cells row0 in
  match row with
  | [] => inr st
  | first :: _ =>
      if starts_with "c"%char first then
        inr (mkParser (parsed st) (collecting st) (row !! 3%nat) (declared st))
      else if starts_with "p"%char first then
        match row !! 2%nat with
        | None => inl ShortRow
        | Some a =>
            match int a with
            | None => inl BadInt
            | Some nv =>
                match row !! 3%nat with
                | None => inl ShortRow
                | Some b =>
                    match int b with
                    | None => inl BadInt
                    | Some nc => inr (mkParser (parsed st) [] (pending st) (Some (nv, nc)))
                    end
                end
            end
        end
      else
        match clause_of int row with
        | None => inl BadInt
        | Some clause =>
            let current := collecting st ++ [clause] in
            match declared st with
            | None => inl NoHeader
            | Some (nv, nc) =>
                if bool_decide (Z.of_nat (length current) = nc) then
                  inr (mkParser (parsed st ++ [mkProblem nv nc current (pending st)])
                         [] None (declared st))
                else inr (mkParser (parsed st) current (pending st) (declared st))
            end
        end
  end.

Fixpoint parse_rows (int : string → option Z) (rows : list (list string))
  (st : parser_state) : parse_error + parser_state :=
  match rows with
  | [] => inr st
  | row :: rest =>
      match parse_row int row st with
      | inl e => inl e
      | inr st' => parse_rows int rest st'
      end
  end.

Definition parse_ksat_cnf (int : string → option Z) (rows : list (list string))
  : parse_error + list problem :=
  match parse_rows int rows (mkParser [] [] None None) with
  | inl e => inl e
  | inr st => inr (parsed st)
  end.

(** Plain decimal numerals, for the examples. *)
Definition decimal_int (s : string) : option Z :=
  Z.of_int <$> NilZero.int_of_string s.

(** *** The layout of a well-formed file *)

(** A row whose non-empty cells are all empty: none. *)
Definition blank (row : list string) : Prop := cells row = [].

(** A comment line carrying the label [l] in its fourth cell. *)
Definition comment_row (l : option string) (row : list string) : Prop :=
  ∃ first rest, cells row = first :: rest ∧ starts_with "c"%char first = true
                ∧ cells row !! 3%nat = l.

(** A problem line [p cnf <num_vars> <num_clauses>]. *)
Definition problem_row (int : string → option Z) (nv nc : Z) (row : list string) : Prop :=
  ∃ first rest a b,
    cells row = first :: rest
    ∧ starts_with "c"%char first = false ∧ starts_with "p"%char first = true
    ∧ cells row !! 2%nat = Some a ∧ int a = Some nv
    ∧ cells row !! 3%nat = Some b ∧ int b = Some nc.

(** A clause line for [clause]. *)
Definition clause_row (int : string → option Z) (row : list string) (clause : list Z)
  : Prop :=
  ∃ first rest,
    cells row = first :: rest
    ∧ starts_with "c"%char first = false ∧ starts_with "p"%char first = false
    ∧ clause_of int (cells row) = Some clause.

(** The rows of one problem: comment line, problem line, and as many clause
    lines as the problem line declares, at least one. *)
Definition block (int : string → option Z) (p : problem) (rows : list (list string))
  : Prop :=
  ∃ crow prow crows,
    rows = crow :: prow :: crows
    ∧ comment_row (satisfiability p) crow
    ∧ problem_row int (num_vars p) (num_clauses p) prow
    ∧ Forall2 (clause_row int) crows (clauses p)
    ∧ num_clauses p = Z.of_nat (length (clauses p))
    ∧ clauses p ≠ [].

(** What every parsed problem satisfies: as many clauses as declared, and
    at least one. *)
Definition complete (p : problem) : Prop :=
  num_clauses p = Z.of_nat (length (clauses p)) ∧ clauses p ≠ [].

(** Rows of the examples: the block of a two-variable problem and a blank
    row. *)
Definition sample_rows : list (list string) :=
  [["c"; "1"; "2"; "S"]; ["p"; "cnf"; "2"; "2"]; ["1"; "2"; "0"]; ["-1"; "-2"; "0"; ""]]%string.

Definition blank_row : list string := [""; ""]%string.

(** ** Plotting *)

(** One call of [plt.scatter]: the two coordinate lists and the keyword
    arguments. The calls that only decorate the figure are left out. *)
Record scatter : Type := mkScatter {
  xs : list Z;
  ys : list Q;
  color : string;
  marker : string;
  legend : string
}.

(** [[v for v, answer in zip(values, answers) if answer == keep]]. *)
Definition select {A} (keep : bool) (values : list A) (answers : list bool) : list A :=
  fst <$> List.filter (λ va : A * bool, eqb (snd va) keep) (zip values answers).

(** [plot_results]: the two [plt.scatter] calls, in order. *)
Definition plot_results (sizes0 : list Z) (times0 : list Q) (answers0 : list bool)
  : list scatter :=
  let satisfiable_sizes := select true sizes0 answers0 in
  let satisfiable_times := select true times0 answers0 in
  let unsatisfiable_sizes := select false sizes0 answers0 in
  let unsatisfiable_times := select false times0 answers0 in
  [mkScatter satisfiable_sizes satisfiable_times "blue" "o" "Satisfiable";
   mkScatter unsatisfiable_sizes unsatisfiable_times "red" "x" "Unsatisfiable"]%string.

(** The main program, from the parsed problems on: run the cases, then plot
    what the run returned. *)
Definition main (fuel : nat) (clock : nat → Q) (problems : list problem)
  : M world (list scatter) :=
  let! r := run_ksat_cases fuel clock problems in
  ret (plot_results r.1.1 r.1.2 r.2).

(** ** Vocabulary of the further properties *)

(** The order in which the search tries total assignments: True before
    False, the variable of lowest index deciding. *)
Fixpoint tried_first (q q' : list bool) : Prop :=
  match q, q' with
  | x :: r, y :: r' => (x = true ∧ y = false) ∨ (x = y ∧ tried_first r r')
  | _, _ => True
  end.

(** The depths of the calls of [backtrack] in a log. *)
Fixpoint enters (tr : list event) : list Z :=
  match tr with
  | [] => []
  | Enter d _ :: rest => d :: enters rest
  | _ :: rest => enters rest
  end.

(** Two engines of the examples: a satisfiable one and an unsatisfiable
    one, both over two variables. *)
Definition sat_engine : IncrementalkSAT.t := IncrementalkSAT.mk [[1; 2]; [-1; -2]] 2.

Definition unsat_engine : IncrementalkSAT.t := IncrementalkSAT.mk [[1]; [-1]; [2]] 2.

(** ** Facts about the specification side *)

Lemma lit_value_true a lit : lit_value a lit = true ↔ literal_true a lit.
Proof.
  unfold lit_value, literal_true.
  destruct (bool_decide_reflect (lit > 0)) as [Hp|Hp];
    [| destruct (bool_decide_reflect (lit < 0)) as [Hn|Hn]].
  - destruct (a !! Z.to_nat (lit - 1)) as [[]|]; simpl; split;
      try discriminate; try (intros _; left; split; [lia | done]);
      intros [[_ Hx]|[Hx _]]; try discriminate; lia.
  - destruct (a !! Z.to_nat (Z.abs lit - 1)) as [[]|]; simpl; split;
      try discriminate; try (intros _; right; split; [lia | done]);
      intros [[Hx _]|[_ Hx]]; try discriminate; lia.
  - split; [discriminate | intros [[Hx _]|[Hx _]]; lia].
Qed.

Lemma check_true a cls : check a cls = true ↔ satisfies a cls.
Proof.
  unfold check, satisfies. rewrite forallb_forall. split.
  - intros H clause Hin. apply list_elem_of_In in Hin. apply H in Hin.
    apply existsb_exists in Hin as (lit & Hlit & Hv).
    exists lit. split; [by apply list_elem_of_In | by apply lit_value_true].
  - intros H clause Hin. apply list_elem_of_In in Hin.
    destruct (H _ Hin) as (lit & Hlit & Hv).
    apply existsb_exists. exists lit. split; [by apply list_elem_of_In | by apply lit_value_true].
Qed.

Lemma foldl_max_ge (xs : list Z) (x : Z) :
  x <= foldl Z.max x xs ∧ ∀ y, y ∈ xs → y <= foldl Z.max x xs.
Proof.
  revert x. induction xs as [|z xs IH]; intros x; simpl.
  - split; [lia | intros y Hy; by apply elem_of_nil in Hy].
  - destruct (IH (Z.max x z)) as [H1 H2]. split; [lia |].
    intros y Hy. apply elem_of_cons in Hy as [->|Hy]; [lia | by apply H2].
Qed.

Lemma foldl_max_in (xs : list Z) (x : Z) :
  foldl Z.max x xs = x ∨ foldl Z.max x xs ∈ xs.
Proof.
  revert x. induction xs as [|z xs IH]; intros x; simpl; [by left |].
  destruct (IH (Z.max x z)) as [H|H].
  - rewrite H. destruct (Z.max_spec x z) as [[_ ->]|[_ ->]]; [right; left | by left].
  - right. by right.
Qed.

(** ** Basic facts about the monad and the list operations *)

Lemma py_index_nonneg (len : nat) (i : Z) :
  0 <= i < Z.of_nat len → py_index len i = Some (Z.to_nat i).
Proof. intros H. unfold py_index. by rewrite bool_decide_eq_true_2. Qed.

Lemma bind_Ret {S A B} (c : M S A) (k : A → M S B) s a s' :
  c s = Ret a s' → bind c k s = k a s'.
Proof. intros H. unfold bind. by rewrite H. Qed.

Lemma shape_snoc p x k : shape (p ++ [x]) k = (Some <$> p) ++ Some x :: replicate k None.
Proof. unfold shape. by rewrite fmap_app, <- (assoc_L (++)). Qed.

Lemma shape_full p : shape p 0 = Some <$> p.
Proof. unfold shape. simpl. by rewrite (right_id_L [] (++)). Qed.

Lemma shape_prefix p k :
  prefix_assigned (length p + k) (Z.of_nat (length p)) (shape p k).
Proof.
  unfold prefix_assigned, shape. split; [lia |]. split.
  - by rewrite length_app, length_fmap, length_replicate.
  - intros i Hi. split; intros Hd.
    + destruct (lookup_lt_is_Some_2 p i) as [x Hx]; [lia |].
      exists x. rewrite lookup_app_l by (rewrite length_fmap; lia).
      by rewrite list_lookup_fmap, Hx.
    + rewrite lookup_app_r by (rewrite length_fmap; lia).
      apply lookup_replicate_2. rewrite length_fmap. lia.
Qed.

Lemma prefix_full (a : list bool) :
  prefix_assigned (length a) (Z.of_nat (length a)) (Some <$> a).
Proof.
  rewrite <- shape_full. generalize (shape_prefix a 0). by rewrite Nat.add_0_r.
Qed.

Lemma setitem_middle (p : list bool) (x v : pyval) (rest : list pyval) tr :
  setitem (Z.of_nat (length p)) v (mkHeap ((Some <$> p) ++ x :: rest) tr)
  = Ret tt (mkHeap ((Some <$> p) ++ v :: rest) tr).
Proof.
  unfold setitem; simpl.
  rewrite py_index_nonneg by (rewrite length_app, length_fmap; simpl; lia).
  rewrite Nat2Z.id.
  replace (length p) with (length (Some <$> p) + 0)%nat at 1 by (rewrite length_fmap; lia).
  by rewrite insert_app_r.
Qed.

(** ** The satisfaction check on a fully assigned list *)

Section FullyAssigned.
Import IncrementalkSAT.
Variable a : list bool.

Lemma getitem_full tr i :
  0 <= i < Z.of_nat (length a) →
  ∃ x, a !! Z.to_nat i = Some x ∧
    getitem i (mkHeap (Some <$> a) tr)
    = Ret (Some x) (mkHeap (Some <$> a) (Read i (Some <$> a) :: tr)).
Proof.
  intros Hi.
  destruct (lookup_lt_is_Some_2 a (Z.to_nat i)) as [x Hx]; [lia |].
  exists x. split; [done |].
  unfold getitem; simpl. rewrite length_fmap, py_index_nonneg by done.
  by rewrite list_lookup_fmap, Hx.
Qed.

Lemma read_ok i :
  0 <= i < Z.of_nat (length a) → event_ok (length a) (Read i (Some <$> a)).
Proof. intros Hi. split; [apply prefix_full | done]. Qed.

Lemma literal_holds_full tr lit :
  Z.abs lit <= Z.of_nat (length a) →
  ∃ new, literal_holds lit (mkHeap (Some <$> a) tr)
         = Ret (lit_value a lit) (mkHeap (Some <$> a) (new ++ tr))
       ∧ Forall (event_ok (length a)) new.
Proof.
  intros Hb. unfold literal_holds, lit_value.
  destruct (bool_decide_reflect (lit > 0)) as [Hp|Hp];
    [| destruct (bool_decide_reflect (lit < 0)) as [Hn|Hn]].
  - destruct (getitem_full tr (lit - 1)) as (x & Hx & Hg); [lia |].
    exists [Read (lit - 1) (Some <$> a)]. split.
    + rewrite (bind_Ret _ _ _ _ _ Hg), Hx. by destruct x.
    + constructor; [apply read_ok; lia | constructor].
  - destruct (getitem_full tr (Z.abs lit - 1)) as (x & Hx & Hg); [lia |].
    exists [Read (Z.abs lit - 1) (Some <$> a)]. split.
    + rewrite (bind_Ret _ _ _ _ _ Hg), Hx. by destruct x.
    + constructor; [apply read_ok; lia | constructor].
  - exists []. split; [done | constructor].
Qed.

Lemma any_literal_full tr clause :
  (∀ lit, lit ∈ clause → Z.abs lit <= Z.of_nat (length a)) →
  ∃ new, any_literal clause (mkHeap (Some <$> a) tr)
         = Ret (existsb (lit_value a) clause) (mkHeap (Some <$> a) (new ++ tr))
       ∧ Forall (event_ok (length a)) new.
Proof.
  revert tr. induction clause as [|lit rest IH]; intros tr Hb; simpl.
  - exists []. split; [done | constructor].
  - destruct (literal_holds_full tr lit) as (new1 & H1 & Hok1); [apply Hb; left |].
    rewrite (bind_Ret _ _ _ _ _ H1).
    destruct (lit_value a lit); simpl.
    + by exists new1.
    + destruct (IH (new1 ++ tr)) as (new2 & H2 & Hok2);
        [intros l Hl; apply Hb; by right |].
      exists (new2 ++ new1). rewrite <- (assoc_L (++)). split; [done |].
      by apply Forall_app.
Qed.

Lemma all_clauses_full tr cls :
  (∀ clause lit, clause ∈ cls → lit ∈ clause → Z.abs lit <= Z.of_nat (length a)) →
  ∃ new, all_clauses cls (mkHeap (Some <$> a) tr)
         = Ret (check a cls) (mkHeap (Some <$> a) (new ++ tr))
       ∧ Forall (event_ok (length a)) new.
Proof.
  revert tr. induction cls as [|clause rest IH]; intros tr Hb; simpl.
  - exists []. split; [done | constructor].
  - destruct (any_literal_full tr clause) as (new1 & H1 & Hok1);
      [intros l Hl; apply (Hb clause); [left | done] |].
    rewrite (bind_Ret _ _ _ _ _ H1).
    destruct (existsb (lit_value a) clause); simpl.
    + destruct (IH (new1 ++ tr)) as (new2 & H2 & Hok2);
        [intros c l Hc Hl; apply (Hb c); [by right | done] |].
      exists (new2 ++ new1). rewrite <- (assoc_L (++)). split; [done |].
      by apply Forall_app.
    + by exists new1.
Qed.

End FullyAssigned.

(** ** The backtracking search *)

Section Search.
Import IncrementalkSAT.
Variable self : t.
Variable N : nat.
Hypothesis Hnum : num_vars self = Z.of_nat N.
Hypothesis Hbound :
  ∀ clause lit, clause ∈ clauses self → lit ∈ clause → Z.abs lit <= Z.of_nat N.

Lemma backtrack_spec (k : nat) :
  ∀ fuel p tr, (k < fuel)%nat → (length p + k = N)%nat →
  ∃ b new buf',
    backtrack fuel self (Z.of_nat (length p)) (mkHeap (shape p k) tr)
    = Ret b (mkHeap buf' (new ++ tr))
    ∧ Forall (event_ok N) new
    ∧ (b = true ↔ ∃ q, length q = k ∧ check (p ++ q) (clauses self) = true)
    ∧ (if b then ∃ q, length q = k ∧ buf' = Some <$> (p ++ q) else buf' = shape p k).
Proof.
  induction k as [|k IH]; intros fuel p tr Hf Hl; (destruct fuel as [|fuel]; [lia |]).
  - simpl backtrack. rewrite shape_full.
    unfold bind at 1. unfold log at 1. simpl assignment. simpl trace.
    rewrite bool_decide_eq_true_2 by lia.
    destruct (all_clauses_full p (Enter (Z.of_nat (length p)) (Some <$> p) :: tr)
                (clauses self)) as (new & Hrun & Hok).
    { intros c l Hc Hlit. specialize (Hbound c l Hc Hlit). lia. }
    replace (length p) with N in Hok by lia.
    unfold is_satisfied. rewrite (bind_Ret _ _ _ _ _ Hrun).
    assert (Hpre : prefix_assigned N (Z.of_nat (length p)) (Some <$> p)).
    { rewrite <- shape_full, <- Hl at 1. apply shape_prefix. }
    exists (check p (clauses self)),
      (Leave (Z.of_nat (length p)) (check p (clauses self)) (Some <$> p)
         :: new ++ [Enter (Z.of_nat (length p)) (Some <$> p)]),
      (Some <$> p).
    split; [| split; [| split]].
    + unfold bind, log, ret; simpl. by rewrite <- (assoc_L (++)).
    + constructor.
      * simpl. destruct (check p (clauses self)); [| done].
        by replace (Z.of_nat N) with (Z.of_nat (length p)) by lia.
      * apply Forall_app_2; [done |]. constructor; [exact Hpre | constructor].
    + split.
      * intros Hc. exists []. by rewrite (right_id_L [] (++)).
      * intros (q & Hq & Hc). apply nil_length_inv in Hq. subst q.
        by rewrite (right_id_L [] (++)) in Hc.
    + destruct (check p (clauses self)); [| done].
      exists []. by rewrite (right_id_L [] (++)).
  - simpl backtrack.
    unfold bind at 1. unfold log at 1. simpl assignment. simpl trace.
    rewrite bool_decide_eq_false_2 by lia.
    assert (Hpre : prefix_assigned N (Z.of_nat (length p)) (shape p (S k))).
    { rewrite <- Hl at 1. apply shape_prefix. }
    remember (Enter (Z.of_nat (length p)) (shape p (S k))) as e0 eqn:He0.
    assert (Hlen : ∀ x : bool, Z.of_nat (length (p ++ [x])) = Z.of_nat (length p) + 1).
    { intros x. rewrite length_app. simpl. lia. }
    change (shape p (S k)) with ((Some <$> p) ++ None :: replicate k None).
    (* first branch: True *)
    destruct (IH fuel (p ++ [true]) (e0 :: tr)) as (b1 & new1 & buf1 & Hrun1 & Hok1 & Hiff1 & Hbuf1);
      [lia | rewrite length_app; simpl; lia |].
    rewrite Hlen, shape_snoc in Hrun1.
    unfold bind at 1. unfold bind at 1.
    rewrite setitem_middle. rewrite (bind_Ret _ _ _ _ _ Hrun1).
    destruct b1.
    { destruct Hbuf1 as (q1 & Hq1 & ->).
      exists true, (Leave (Z.of_nat (length p)) true (Some <$> (p ++ [true]) ++ q1)
                      :: new1 ++ [e0]), (Some <$> (p ++ [true]) ++ q1).
      split; [| split; [| split]].
      - unfold bind, log, ret; simpl. do 3 f_equal. by rewrite <- ?(assoc_L (++)).
      - constructor.
        + simpl.
          assert (HN : N = length ((p ++ [true]) ++ q1))
            by (rewrite !length_app; simpl; lia).
          rewrite HN. apply prefix_full.
        + apply Forall_app_2; [done |]. subst e0. constructor; [exact Hpre | constructor].
      - split; [intros _ | done].
        destruct Hiff1 as [(q & Hq & Hc) _]; [done |].
        exists (true :: q). split; [simpl; lia |].
        by rewrite <- (assoc_L (++)) in Hc.
      - exists (true :: q1). split; [simpl; lia |]. by rewrite <- (assoc_L (++)). }
    subst buf1. rewrite shape_snoc.
    (* second branch: False *)
    destruct (IH fuel (p ++ [false]) (new1 ++ e0 :: tr))
      as (b2 & new2 & buf2 & Hrun2 & Hok2 & Hiff2 & Hbuf2);
      [lia | rewrite length_app; simpl; lia |].
    rewrite Hlen, shape_snoc in Hrun2.
    rewrite (bind_Ret _ _ _ _ _ (setitem_middle _ _ _ _ _)). rewrite (bind_Ret _ _ _ _ _ Hrun2).
    destruct b2.
    { destruct Hbuf2 as (q2 & Hq2 & ->).
      exists true, (Leave (Z.of_nat (length p)) true (Some <$> (p ++ [false]) ++ q2)
                      :: new2 ++ new1 ++ [e0]), (Some <$> (p ++ [false]) ++ q2).
      split; [| split; [| split]].
      - unfold bind, log, ret; simpl. do 3 f_equal. by rewrite <- ?(assoc_L (++)).
      - constructor.
        + simpl.
          assert (HN : N = length ((p ++ [false]) ++ q2))
            by (rewrite !length_app; simpl; lia).
          rewrite HN. apply prefix_full.
        + apply Forall_app_2; [done |]. apply Forall_app_2; [done |].
          subst e0. constructor; [exact Hpre | constructor].
      - split; [intros _ | done].
        destruct Hiff2 as [(q & Hq & Hc) _]; [done |].
        exists (false :: q). split; [simpl; lia |].
        by rewrite <- (assoc_L (++)) in Hc.
      - exists (false :: q2). split; [simpl; lia |]. by rewrite <- (assoc_L (++)). }
    subst buf2. rewrite shape_snoc.
    (* both failed: reset *)
    rewrite (bind_Ret _ _ _ _ _ (setitem_middle _ _ _ _ _)).
    exists false, (Leave (Z.of_nat (length p)) false (shape p (S k))
                     :: new2 ++ new1 ++ [e0]), (shape p (S k)).
    split; [| split; [| split]].
    + unfold bind, log, ret; simpl. do 3 f_equal. by rewrite <- ?(assoc_L (++)).
    + constructor; [exact Hpre |].
      apply Forall_app_2; [done |]. apply Forall_app_2; [done |].
      subst e0. constructor; [exact Hpre | constructor].
    + split; [done |]. intros (q & Hq & Hc).
      destruct q as [|[] q]; [done | |]; simpl in Hq.
      * enough (false = true) by done. apply Hiff1.
        exists q. split; [lia |]. by rewrite <- (assoc_L (++)).
      * enough (false = true) by done. apply Hiff2.
        exists q. split; [lia |]. by rewrite <- (assoc_L (++)).
    + done.
Qed.


(** From the fresh list: the whole search. *)
Lemma search_run_spec fuel :
  (N < fuel)%nat →
  ∃ b tr buf',
    search_run fuel self = Ret b (mkHeap buf' tr)
    ∧ Forall (event_ok N) tr
    ∧ (b = true ↔ ∃ a, length a = N ∧ check a (clauses self) = true)
    ∧ (if b then ∃ a, length a = N ∧ buf' = Some <$> a
       else buf' = replicate N None).
Proof.
  intros Hf.
  destruct (backtrack_spec N fuel [] [] Hf) as (b & new & buf' & Hrun & Hok & Hiff & Hbuf);
    [done |].
  exists b, new, buf'. unfold search_run, fresh.
  rewrite Hnum, Nat2Z.id. rewrite (right_id_L [] (++)) in Hrun.
  split; [exact Hrun |]. split; [done |]. split; [exact Hiff | exact Hbuf].
Qed.

(** With a budget of at most [N] nested calls the descent
    [backtrack(0)], [backtrack(1)], ... is cut before it reaches a leaf. *)
Lemma backtrack_diverge fuel :
  ∀ index h,
    0 <= index → index + Z.of_nat fuel <= Z.of_nat N →
    length (assignment h) = N →
    backtrack fuel self index h = Diverge.
Proof.
  induction fuel as [|fuel IH]; intros index h H0 Hle Hlen; [done |].
  simpl backtrack. unfold bind at 1. unfold log at 1.
  rewrite bool_decide_eq_false_2 by lia.
  unfold bind at 1. unfold bind at 1. unfold setitem at 1. simpl assignment.
  rewrite Hlen, py_index_nonneg by lia.
  unfold bind at 1. rewrite IH; [done | lia | lia |].
  simpl. by rewrite length_insert.
Qed.

Lemma search_run_diverge fuel :
  (fuel <= N)%nat → search_run fuel self = Diverge.
Proof.
  intros Hf. unfold search_run. apply backtrack_diverge; [done | lia |].
  unfold fresh; simpl. by rewrite length_replicate, Hnum, Nat2Z.id.
Qed.

End Search.

(** ** The constructor *)

Lemma elem_of_concat {A} (x : A) (ls : list (list A)) :
  x ∈ concat ls ↔ ∃ l, l ∈ ls ∧ x ∈ l.
Proof.
  induction ls as [|l ls IH]; simpl.
  - split; [intros H; by apply elem_of_nil in H | intros (l & H & _); by apply elem_of_nil in H].
  - rewrite elem_of_app, IH. split.
    + intros [H|(l' & H1 & H2)]; [exists l; split; [left | done] | exists l'; split; [by right | done]].
    + intros (l' & H1 & H2). apply elem_of_cons in H1 as [->|H1]; [by left | right; by exists l'].
Qed.

Lemma init_no_literal {S} (cls : list (list Z)) (s : S) :
  concat cls = [] → IncrementalkSAT.init cls s = Raise ValueError s.
Proof.
  intros H. unfold IncrementalkSAT.init, IncrementalkSAT.get_num_vars, bind. by rewrite H.
Qed.

Lemma init_has_literal (cls : list (list Z)) :
  concat cls ≠ [] →
  ∃ n, (∀ S (s : S), IncrementalkSAT.init cls s = Ret (IncrementalkSAT.mk cls n) s)
       ∧ max_magnitude cls n.
Proof.
  intros H. unfold IncrementalkSAT.init, IncrementalkSAT.get_num_vars.
  destruct (Z.abs <$> concat cls) as [|x xs] eqn:E.
  { destruct (concat cls); [done | discriminate]. }
  exists (foldl Z.max x xs). split; [done |].
  destruct (foldl_max_ge xs x) as [Hx Hxs].
  assert (Hall : ∀ y, y ∈ Z.abs <$> concat cls → y <= foldl Z.max x xs).
  { intros y Hy. rewrite E in Hy. apply elem_of_cons in Hy as [->|Hy]; [done | by apply Hxs]. }
  assert (Hin : foldl Z.max x xs ∈ Z.abs <$> concat cls).
  { rewrite E. destruct (foldl_max_in xs x) as [->|Hm]; [left | by right]. }
  split.
  - apply list_elem_of_fmap in Hin as (lit & Hlit & Hc).
    apply elem_of_concat in Hc as (clause & Hc & Hl).
    exists clause, lit. done.
  - intros clause lit Hc Hl. apply Hall. apply list_elem_of_fmap.
    exists lit. split; [done |]. apply elem_of_concat. by exists clause.
Qed.

Lemma max_magnitude_nonneg cls n : max_magnitude cls n → 0 <= n.
Proof. intros [(c & l & _ & _ & <-) _]. lia. Qed.

(** ** Runs of the engine *)

Lemma incremental_search_Ret {S} fuel self (s : S) b h :
  IncrementalkSAT.search_run fuel self = Ret b h →
  IncrementalkSAT.incremental_search fuel self s = Ret b s.
Proof. intros H. unfold IncrementalkSAT.incremental_search. rewrite H. by destruct b. Qed.

Lemma incremental_search_Diverge {S} fuel self (s : S) :
  IncrementalkSAT.search_run fuel self = Diverge →
  IncrementalkSAT.incremental_search fuel self s = Diverge.
Proof. intros H. unfold IncrementalkSAT.incremental_search. by rewrite H. Qed.

Lemma max_magnitude_bounded cls n :
  max_magnitude cls n → bounded (IncrementalkSAT.mk cls n).
Proof.
  intros Hm. split; simpl; [by eapply max_magnitude_nonneg | apply Hm].
Qed.

(** A bounded engine with enough budget returns, its log satisfies
    [event_ok], and its answer is the satisfiability of its clauses. *)
Lemma bounded_run self fuel :
  bounded self →
  (Z.to_nat (IncrementalkSAT.num_vars self) < fuel)%nat →
  ∃ b h,
    IncrementalkSAT.search_run fuel self = Ret b h
    ∧ Forall (event_ok (Z.to_nat (IncrementalkSAT.num_vars self))) (trace h)
    ∧ (b = true ↔
       satisfiable (IncrementalkSAT.num_vars self) (IncrementalkSAT.clauses self)).
Proof.
  intros [Hn Hb] Hf.
  set (N := Z.to_nat (IncrementalkSAT.num_vars self)) in *.
  assert (HN : IncrementalkSAT.num_vars self = Z.of_nat N) by (unfold N; lia).
  destruct (search_run_spec self N HN) with (fuel := fuel)
    as (b & tr & buf' & Hrun & Hok & Hiff & _); [| done |].
  { intros c l Hc Hl. rewrite <- HN. by apply (Hb c). }
  exists b, (mkHeap buf' tr). split; [done |]. split; [done |].
  rewrite Hiff. unfold satisfiable. split.
  - intros (a & Ha & Hc). exists a. split; [lia | by apply check_true].
  - intros (a & Ha & Hc). exists a. split; [lia | by apply check_true].
Qed.

(** ** Theorems about the engine *)

(** C3: for a clause set with at least one literal the engine is built with
    [N] the maximum literal magnitude, and [search()] returns, with any
    sufficient recursion budget, a boolean that is true iff some total
    assignment of the variables [1..N] gives every clause a true literal. *)
Theorem search_decides_satisfiability (cls : list (list Z)) :
  concat cls ≠ [] →
  ∃ self,
    (∀ S (s : S), IncrementalkSAT.init cls s = Ret self s)
    ∧ IncrementalkSAT.clauses self = cls
    ∧ max_magnitude cls (IncrementalkSAT.num_vars self)
    ∧ ∀ fuel S (s : S),
        (Z.to_nat (IncrementalkSAT.num_vars self) < fuel)%nat →
        ∃ b, IncrementalkSAT.incremental_search fuel self s = Ret b s
             ∧ (b = true ↔ satisfiable (IncrementalkSAT.num_vars self) cls).
Proof.
  intros Hne. destruct (init_has_literal cls Hne) as (n & Hinit & Hmax).
  exists (IncrementalkSAT.mk cls n). split; [done |]. split; [done |].
  split; [done |]. intros fuel S s Hf.
  destruct (bounded_run (IncrementalkSAT.mk cls n) fuel) as (b & h & Hrun & _ & Hiff);
    [by apply max_magnitude_bounded | done |].
  exists b. split; [by eapply incremental_search_Ret | done].
Qed.

Lemma search_decides_satisfiability_witness :
  concat [[1; 2]; [-1; -2]] ≠ [] ∧
  ∃ self,
    (∀ S (s : S), IncrementalkSAT.init [[1; 2]; [-1; -2]] s = Ret self s)
    ∧ IncrementalkSAT.clauses self = [[1; 2]; [-1; -2]]
    ∧ max_magnitude [[1; 2]; [-1; -2]] (IncrementalkSAT.num_vars self)
    ∧ ∀ fuel S (s : S),
        (Z.to_nat (IncrementalkSAT.num_vars self) < fuel)%nat →
        ∃ b, IncrementalkSAT.incremental_search fuel self s = Ret b s
             ∧ (b = true ↔
                satisfiable (IncrementalkSAT.num_vars self) [[1; 2]; [-1; -2]]).
Proof.
  split; [discriminate |].
  apply (search_decides_satisfiability [[1; 2]; [-1; -2]]). discriminate.
Defined.

(** C2, as the code has it: with zero clauses the search itself returns
    true for every variable count [N >= 0] the engine is given. (The
    constructor cannot derive [N] from a clause set without literals.) *)
Theorem search_no_clauses (N : Z) (fuel : nat) :
  0 <= N → (Z.to_nat N < fuel)%nat →
  ∀ S (s : S),
    IncrementalkSAT.incremental_search fuel (IncrementalkSAT.mk [] N) s = Ret true s.
Proof.
  intros HN Hf S s.
  destruct (bounded_run (IncrementalkSAT.mk [] N) fuel) as (b & h & Hrun & _ & Hiff);
    [| done |].
  { split; simpl; [done |]. intros c l Hc. by apply elem_of_nil in Hc. }
  assert (b = true) as ->.
  { apply Hiff. simpl. exists (replicate (Z.to_nat N) true).
    split; [rewrite length_replicate; lia |].
    intros c Hc. by apply elem_of_nil in Hc. }
  by eapply incremental_search_Ret.
Qed.

Lemma search_no_clauses_witness :
  0 <= 2 ∧ (Z.to_nat 2 < 3)%nat ∧
  ∀ S (s : S),
    IncrementalkSAT.incremental_search 3 (IncrementalkSAT.mk [] 2) s = Ret true s.
Proof.
  split; [lia |]. split; [simpl; lia |].
  apply (search_no_clauses 2 3); [lia | simpl; lia].
Defined.

(** C2, as stated, fails: from the clause set with zero clauses the engine
    cannot be constructed, whatever the budget; [max] has nothing to take
    the maximum of and raises. *)
Lemma construct_no_clauses_raises :
  length ([] : list (list Z)) = 0%nat ∧
  ∀ fuel,
    (let! solver := IncrementalkSAT.init [] in
     IncrementalkSAT.incremental_search fuel solver) tt = Raise ValueError tt.
Proof. split; [reflexivity | intros fuel; reflexivity]. Qed.

(** C6, as the code has it: a clause set that contains an empty clause and
    at least one literal makes [search()] return false. *)
Theorem search_empty_clause (cls : list (list Z)) :
  [] ∈ cls → concat cls ≠ [] →
  ∃ self,
    (∀ S (s : S), IncrementalkSAT.init cls s = Ret self s)
    ∧ ∀ fuel S (s : S),
        (Z.to_nat (IncrementalkSAT.num_vars self) < fuel)%nat →
        IncrementalkSAT.incremental_search fuel self s = Ret false s.
Proof.
  intros Hin Hne. destruct (init_has_literal cls Hne) as (n & Hinit & Hmax).
  exists (IncrementalkSAT.mk cls n). split; [done |]. intros fuel S s Hf.
  destruct (bounded_run (IncrementalkSAT.mk cls n) fuel) as (b & h & Hrun & _ & Hiff);
    [by apply max_magnitude_bounded | done |].
  destruct b; [| by eapply incremental_search_Ret].
  destruct Hiff as [Hsat _]. destruct Hsat as (a & _ & Hsat); [done |].
  destruct (Hsat [] Hin) as (lit & Hlit & _). by apply elem_of_nil in Hlit.
Qed.

Lemma search_empty_clause_witness :
  [] ∈ [[1]; []] ∧ concat [[1]; []] ≠ [] ∧
  ∃ self,
    (∀ S (s : S), IncrementalkSAT.init [[1]; []] s = Ret self s)
    ∧ ∀ fuel S (s : S),
        (Z.to_nat (IncrementalkSAT.num_vars self) < fuel)%nat →
        IncrementalkSAT.incremental_search fuel self s = Ret false s.
Proof.
  assert (H : [] ∈ [[1]; []]) by (right; left).
  split; [exact H |]. split; [discriminate |].
  apply (search_empty_clause [[1]; []]); [exact H | discriminate].
Defined.

(** C6, as stated, fails on the clause set whose only clause is empty: the
    constructor raises, so there is no search that returns false. *)
Lemma construct_only_empty_clause_raises :
  [] ∈ [[] : list Z] ∧
  ∀ fuel,
    (let! solver := IncrementalkSAT.init [[]] in
     IncrementalkSAT.incremental_search fuel solver) tt = Raise ValueError tt.
Proof. split; [left | intros fuel; reflexivity]. Qed.

(** C8: in every search of a bounded engine, whenever [backtrack] is
    invoked at depth [d] the working list has exactly the entries
    [0..d-1] assigned and all entries from [d] on unassigned; and whenever
    [backtrack] returns false at depth [d] the list is in that state
    again, the entry at [d] reset to [None]. *)
Theorem backtrack_prefix_invariant (self : IncrementalkSAT.t) (fuel : nat) :
  bounded self →
  (Z.to_nat (IncrementalkSAT.num_vars self) < fuel)%nat →
  ∃ b h,
    IncrementalkSAT.search_run fuel self = Ret b h
    ∧ (∀ d snap, Enter d snap ∈ trace h →
         prefix_assigned (Z.to_nat (IncrementalkSAT.num_vars self)) d snap)
    ∧ (∀ d snap, Leave d false snap ∈ trace h →
         prefix_assigned (Z.to_nat (IncrementalkSAT.num_vars self)) d snap
         ∧ (d < IncrementalkSAT.num_vars self → snap !! Z.to_nat d = Some None)).
Proof.
  intros Hb Hf. destruct (bounded_run self fuel Hb Hf) as (b & h & Hrun & Hok & _).
  exists b, h. split; [done |].
  rewrite Forall_forall in Hok. split.
  - intros d snap Hin. exact (Hok _ Hin).
  - intros d snap Hin. pose proof (Hok _ Hin) as Hpre. simpl in Hpre.
    split; [done |]. intros Hd.
    destruct Hpre as ([Hd0 _] & _ & Hall).
    apply (Hall (Z.to_nat d)); lia.
Qed.

Lemma backtrack_prefix_invariant_witness :
  bounded (IncrementalkSAT.mk [[1]; [-1]] 1) ∧
  (Z.to_nat (IncrementalkSAT.num_vars (IncrementalkSAT.mk [[1]; [-1]] 1)%Z) < 2)%nat ∧
  ∃ b h,
    IncrementalkSAT.search_run 2 (IncrementalkSAT.mk [[1]; [-1]] 1) = Ret b h
    ∧ (∀ d snap, Enter d snap ∈ trace h →
         prefix_assigned
           (Z.to_nat (IncrementalkSAT.num_vars (IncrementalkSAT.mk [[1]; [-1]] 1))) d snap)
    ∧ (∀ d snap, Leave d false snap ∈ trace h →
         prefix_assigned
           (Z.to_nat (IncrementalkSAT.num_vars (IncrementalkSAT.mk [[1]; [-1]] 1))) d snap
         ∧ (d < IncrementalkSAT.num_vars (IncrementalkSAT.mk [[1]; [-1]] 1) →
            snap !! Z.to_nat d = Some None)).
Proof.
  assert (Hb : bounded (IncrementalkSAT.mk [[1]; [-1]] 1)).
  { split; simpl; [lia |]. intros c l Hc Hl.
    apply elem_of_cons in Hc as [->|Hc].
    - apply elem_of_cons in Hl as [->|Hl]; [simpl; lia | by apply elem_of_nil in Hl].
    - apply elem_of_cons in Hc as [->|Hc]; [| by apply elem_of_nil in Hc].
      apply elem_of_cons in Hl as [->|Hl]; [simpl; lia | by apply elem_of_nil in Hl]. }
  split; [exact Hb |]. split; [simpl; lia |].
  apply (backtrack_prefix_invariant (IncrementalkSAT.mk [[1]; [-1]] 1) 2 Hb).
  simpl; lia.
Defined.

(** C9: for a clause set with at least one literal the search returns
    without an [IndexError], and every read [assignment[i]] that the
    satisfaction check performs is made on a list of [num_vars] entries,
    all of them assigned, at an index [0 <= i < num_vars] that denotes
    position [i] itself. *)
Theorem leaf_reads_in_bounds (cls : list (list Z)) :
  concat cls ≠ [] →
  ∃ self,
    (∀ S (s : S), IncrementalkSAT.init cls s = Ret self s)
    ∧ ∀ fuel,
        (Z.to_nat (IncrementalkSAT.num_vars self) < fuel)%nat →
        ∃ b h,
          IncrementalkSAT.search_run fuel self = Ret b h
          ∧ ∀ i snap, Read i snap ∈ trace h →
              Z.of_nat (length snap) = IncrementalkSAT.num_vars self
              ∧ 0 <= i < Z.of_nat (length snap)
              ∧ py_index (length snap) i = Some (Z.to_nat i)
              ∧ (∃ v : bool, snap !! Z.to_nat i = Some (Some v))
              ∧ (∀ j x, snap !! j = Some x → x ≠ None).
Proof.
  intros Hne. destruct (init_has_literal cls Hne) as (n & Hinit & Hmax).
  exists (IncrementalkSAT.mk cls n). split; [done |]. intros fuel Hf.
  destruct (bounded_run (IncrementalkSAT.mk cls n) fuel) as (b & h & Hrun & Hok & _);
    [by apply max_magnitude_bounded | done |].
  exists b, h. split; [done |]. intros i snap Hin.
  rewrite Forall_forall in Hok. pose proof (Hok _ Hin) as [Hpre Hi].
  simpl in *. pose proof (max_magnitude_nonneg _ _ Hmax) as Hn.
  destruct Hpre as (_ & Hlen & Hall).
  rewrite Hlen. split; [lia |]. split; [lia |].
  split; [apply py_index_nonneg; lia |]. split.
  - destruct (Hall (Z.to_nat i)) as [Hs _]; [lia |]. apply Hs. lia.
  - intros j x Hj ->. apply lookup_lt_Some in Hj as Hlt.
    assert (Hjn : (j < Z.to_nat n)%nat) by (rewrite <- Hlen; exact Hlt).
    destruct (Hall j Hjn) as [Hs _].
    destruct Hs as [v Hv]; [lia |]. congruence.
Qed.

Lemma leaf_reads_in_bounds_witness :
  concat [[1; -2]; [2]] ≠ [] ∧
  ∃ self,
    (∀ S (s : S), IncrementalkSAT.init [[1; -2]; [2]] s = Ret self s)
    ∧ ∀ fuel,
        (Z.to_nat (IncrementalkSAT.num_vars self) < fuel)%nat →
        ∃ b h,
          IncrementalkSAT.search_run fuel self = Ret b h
          ∧ ∀ i snap, Read i snap ∈ trace h →
              Z.of_nat (length snap) = IncrementalkSAT.num_vars self
              ∧ 0 <= i < Z.of_nat (length snap)
              ∧ py_index (length snap) i = Some (Z.to_nat i)
              ∧ (∃ v : bool, snap !! Z.to_nat i = Some (Some v))
              ∧ (∀ j x, snap !! j = Some x → x ≠ None).
Proof.
  split; [discriminate |].
  apply (leaf_reads_in_bounds [[1; -2]; [2]]). discriminate.
Defined.

(** C10: for a clause set with at least one literal the search terminates.
    The nesting of [backtrack] calls is exactly [num_vars + 1] deep: a
    budget of more than [num_vars] nested calls is never exhausted and
    [search()] returns a boolean, a smaller one is exhausted; and every call
    has a depth between [0] and [num_vars]. *)
Theorem search_terminates (cls : list (list Z)) :
  concat cls ≠ [] →
  ∃ self,
    (∀ S (s : S), IncrementalkSAT.init cls s = Ret self s)
    ∧ ∀ fuel,
        (IncrementalkSAT.incremental_search fuel self tt = Diverge
         ↔ (fuel <= Z.to_nat (IncrementalkSAT.num_vars self))%nat)
        ∧ ((Z.to_nat (IncrementalkSAT.num_vars self) < fuel)%nat →
           ∃ b h,
             IncrementalkSAT.search_run fuel self = Ret b h
             ∧ IncrementalkSAT.incremental_search fuel self tt = Ret b tt
             ∧ ∀ d snap, Enter d snap ∈ trace h →
                 0 <= d <= IncrementalkSAT.num_vars self).
Proof.
  intros Hne. destruct (init_has_literal cls Hne) as (n & Hinit & Hmax).
  exists (IncrementalkSAT.mk cls n). split; [done |]. intros fuel.
  pose proof (max_magnitude_nonneg _ _ Hmax) as Hn.
  assert (Hret : (Z.to_nat n < fuel)%nat →
            ∃ b h, IncrementalkSAT.search_run fuel (IncrementalkSAT.mk cls n) = Ret b h
                   ∧ Forall (event_ok (Z.to_nat n)) (trace h)).
  { intros Hf.
    destruct (bounded_run (IncrementalkSAT.mk cls n) fuel) as (b & h & Hrun & Hok & _);
      [by apply max_magnitude_bounded | done |]. by exists b, h. }
  simpl. split; [split |].
  - intros Hd. destruct (Nat.le_gt_cases fuel (Z.to_nat n)) as [|Hf]; [done |].
    destruct (Hret Hf) as (b & h & Hrun & _).
    by rewrite (incremental_search_Ret _ _ tt _ _ Hrun) in Hd.
  - intros Hf. apply incremental_search_Diverge.
    apply (search_run_diverge _ (Z.to_nat n)); [simpl; lia | done].
  - intros Hf. destruct (Hret Hf) as (b & h & Hrun & Hok).
    exists b, h. split; [done |]. split; [by eapply incremental_search_Ret |].
    intros d snap Hin. rewrite Forall_forall in Hok.
    destruct (Hok _ Hin) as (Hd & _). lia.
Qed.

Lemma search_terminates_witness :
  concat [[1; 2]; [-2]] ≠ [] ∧
  ∃ self,
    (∀ S (s : S), IncrementalkSAT.init [[1; 2]; [-2]] s = Ret self s)
    ∧ ∀ fuel,
        (IncrementalkSAT.incremental_search fuel self tt = Diverge
         ↔ (fuel <= Z.to_nat (IncrementalkSAT.num_vars self))%nat)
        ∧ ((Z.to_nat (IncrementalkSAT.num_vars self) < fuel)%nat →
           ∃ b h,
             IncrementalkSAT.search_run fuel self = Ret b h
             ∧ IncrementalkSAT.incremental_search fuel self tt = Ret b tt
             ∧ ∀ d snap, Enter d snap ∈ trace h →
                 0 <= d <= IncrementalkSAT.num_vars self).
Proof.
  split; [discriminate |].
  apply (search_terminates [[1; 2]; [-2]]). discriminate.
Defined.

(** ** Runs of the batch runner *)

(** What constructing the engine and searching can do: raise [ValueError]
    (no literal), exhaust the budget, or return. *)
Lemma solver_outcome fuel (cls : list (list Z)) :
  (concat cls = [] ∧ ∀ S (s : S), IncrementalkSAT.init cls s = Raise ValueError s)
  ∨ ∃ n,
      (∀ S (s : S), IncrementalkSAT.init cls s = Ret (IncrementalkSAT.mk cls n) s)
      ∧ (IncrementalkSAT.search_run fuel (IncrementalkSAT.mk cls n) = Diverge
         ∨ ∃ b h, IncrementalkSAT.search_run fuel (IncrementalkSAT.mk cls n) = Ret b h).
Proof.
  destruct (decide (concat cls = [])) as [He|Hne].
  - left. split; [done |]. intros S s. by apply init_no_literal.
  - right. destruct (init_has_literal cls Hne) as (n & Hinit & Hmax).
    exists n. split; [done |].
    pose proof (max_magnitude_nonneg _ _ Hmax) as Hn.
    destruct (Nat.le_gt_cases fuel (Z.to_nat n)) as [Hle|Hgt].
    + left. apply (search_run_diverge _ (Z.to_nat n)); [simpl; lia | done].
    + right.
      destruct (bounded_run (IncrementalkSAT.mk cls n) fuel) as (b & h & Hrun & _);
        [by apply max_magnitude_bounded | done |].
      by exists b, h.
Qed.

Lemma time_solver_cases fuel clock cls w :
  match solver_answer fuel cls with
  | Some b =>
      time_solver fuel clock cls w
      = Ret ((clock (S (ticks w)) - clock (ticks w))%Q, b)
            (mkWorld (S (S (ticks w))) (stdout w) (csv w))
  | None =>
      time_solver fuel clock cls w = Raise ValueError w
      ∨ time_solver fuel clock cls w = Diverge
  end.
Proof.
  unfold solver_answer, time_solver.
  destruct (solver_outcome fuel cls) as [[_ Hinit]|(n & Hinit & [Hd|(b & h & Hrun)])].
  - unfold bind at 1. rewrite Hinit. left. unfold bind. by rewrite Hinit.
  - rewrite (bind_Ret _ _ _ _ _ (Hinit _ tt)).
    rewrite (incremental_search_Diverge _ _ tt Hd).
    right. rewrite (bind_Ret _ _ _ _ _ (Hinit _ w)).
    unfold bind, time_time. by rewrite (incremental_search_Diverge _ _ _ Hd).
  - rewrite (bind_Ret _ _ _ _ _ (Hinit _ tt)).
    rewrite (incremental_search_Ret _ _ tt _ _ Hrun).
    rewrite (bind_Ret _ _ _ _ _ (Hinit _ w)).
    unfold bind, time_time. by rewrite (incremental_search_Ret _ _ _ _ _ Hrun).
Qed.

(** One turn of the loop, by the solver's answer. *)
Lemma run_problem_cases fuel clock p acc w :
  match solver_answer fuel (clauses p) with
  | Some b =>
      let e := (clock (S (ticks w)) - clock (ticks w))%Q in
      if mismatch b (satisfiability p) then
        run_problem fuel clock p acc w
        = Raise (SystemExit "Stopping the program due to mismatched results.")
            (mkWorld (S (S (ticks w)))
               ((stdout w ++ [status p e b]) ++ [MismatchLine b (satisfiability p)])
               (csv w ++ [record p e b]))
      else
        run_problem fuel clock p acc w
        = Ret (mkResults (sizes acc ++ [num_vars p]) (times acc ++ [e])
                 (answers acc ++ [b]))
            (mkWorld (S (S (ticks w))) (stdout w ++ [status p e b])
               (csv w ++ [record p e b]))
  | None =>
      run_problem fuel clock p acc w = Raise ValueError w
      ∨ run_problem fuel clock p acc w = Diverge
  end.
Proof.
  pose proof (time_solver_cases fuel clock (clauses p) w) as Ht.
  unfold run_problem.
  destruct (solver_answer fuel (clauses p)) as [b|].
  - rewrite (bind_Ret _ _ _ _ _ Ht). simpl.
    destruct (mismatch b (satisfiability p)); reflexivity.
  - unfold bind. destruct Ht as [-> | ->]; [by left | by right].
Qed.

(** Whatever the loop does, the rows it wrote are the records of a prefix
    of the problems, in order; when it returns, of all of them. *)
Lemma run_loop_rows fuel clock (ps : list problem) :
  ∀ acc w,
    match run_loop fuel clock ps acc w with
    | Ret acc' w' =>
        sizes acc' = sizes acc ++ (num_vars <$> ps)
        ∧ ∃ rows, csv w' = csv w ++ rows ∧ Forall2 row_of ps rows
    | Raise e w' =>
        ∃ processed rows,
          processed `prefix_of` ps ∧ csv w' = csv w ++ rows
          ∧ Forall2 row_of processed rows
    | Diverge => True
    end.
Proof.
  induction ps as [|p ps IH]; intros acc w; simpl.
  - unfold ret. split; [by rewrite (right_id_L [] (++)) |].
    exists []. split; [by rewrite (right_id_L [] (++)) | constructor].
  - pose proof (run_problem_cases fuel clock p acc w) as Hp.
    unfold bind.
    destruct (solver_answer fuel (clauses p)) as [b|].
    + simpl in Hp. destruct (mismatch b (satisfiability p)); rewrite Hp.
      * exists [p], [record p (clock (S (ticks w)) - clock (ticks w))%Q b].
        split; [by exists ps |]. split; [done |].
        constructor; [by eexists _, _ | constructor].
      * match goal with |- context [run_loop _ _ _ ?a ?v] => specialize (IH a v) end.
        destruct (run_loop _ _ _ _ _) as [acc' w'| e w'|]; [| | done].
        -- destruct IH as (Hs & rows & Hc & Hr). simpl in *. split.
           ++ by rewrite Hs, <- (assoc_L (++)).
           ++ exists (record p (clock (S (ticks w)) - clock (ticks w))%Q b :: rows).
              split; [by rewrite Hc, <- (assoc_L (++)) |].
              constructor; [by eexists _, _ | done].
        -- destruct IH as (processed & rows & Hpre & Hc & Hr). simpl in *.
           exists (p :: processed),
             (record p (clock (S (ticks w)) - clock (ticks w))%Q b :: rows).
           split; [by apply prefix_cons |].
           split; [by rewrite Hc, <- (assoc_L (++)) |].
           constructor; [by eexists _, _ | done].
    + destruct Hp as [-> | ->]; [| done].
      exists [], []. split; [apply prefix_nil |].
      split; [by rewrite (right_id_L [] (++)) | constructor].
Qed.

Lemma mismatch_true b label :
  mismatch b label = true ↔ contradicts b (expectation_of label).
Proof.
  unfold mismatch, contradicts, expectation_of.
  destruct (bool_decide_reflect (label = Some "S"%string)) as [->|HS];
    [| destruct (bool_decide_reflect (label = Some "U"%string)) as [->|HU]];
    destruct b; simpl; split; try done; try (intros _; by (left + right));
    intros [[? ?]|[? ?]]; done.
Qed.

Lemma mismatch_false b label :
  mismatch b label = false ↔ ¬ contradicts b (expectation_of label).
Proof.
  rewrite <- mismatch_true. by destruct (mismatch b label).
Qed.

(** The loop over problems that are all answered consistently. *)
Lemma run_loop_ok fuel clock (ps : list problem) (bs : list bool) :
  Forall2 (consistent fuel) ps bs →
  ∀ acc w,
    run_loop fuel clock ps acc w
    = Ret (mkResults (sizes acc ++ (num_vars <$> ps))
             (times acc ++ elapsed_times clock (ticks w) (length ps))
             (answers acc ++ bs))
          (mkWorld (ticks w + 2 * length ps)%nat
             (stdout w ++ zip3 status ps (elapsed_times clock (ticks w) (length ps)) bs)
             (csv w ++ zip3 record ps (elapsed_times clock (ticks w) (length ps)) bs)).
Proof.
  induction 1 as [|p b ps bs [Hans Hmis] _ IH]; intros acc w; simpl.
  2: apply mismatch_false in Hmis.
  - unfold ret. rewrite !(right_id_L [] (++)), Nat.add_0_r. by destruct acc, w.
  - pose proof (run_problem_cases fuel clock p acc w) as Hp.
    rewrite Hans in Hp. simpl in Hp. rewrite Hmis in Hp.
    rewrite (bind_Ret _ _ _ _ _ Hp), IH. simpl.
    rewrite <- !(assoc_L (++)). simpl.
    do 2 f_equal. lia.
Qed.

(** The loop up to the first problem whose answer contradicts its label. *)
Lemma run_loop_mismatch fuel clock (before after : list problem) (pk : problem)
  (bs : list bool) (bk : bool) :
  Forall2 (consistent fuel) before bs →
  solver_answer fuel (clauses pk) = Some bk →
  mismatch bk (satisfiability pk) = true →
  ∀ acc w,
    run_loop fuel clock (before ++ pk :: after) acc w
    = Raise (SystemExit "Stopping the program due to mismatched results.")
        (mkWorld (ticks w + 2 * S (length before))%nat
           (stdout w
              ++ zip3 status (before ++ [pk])
                   (elapsed_times clock (ticks w) (S (length before))) (bs ++ [bk])
              ++ [MismatchLine bk (satisfiability pk)])
           (csv w
              ++ zip3 record (before ++ [pk])
                   (elapsed_times clock (ticks w) (S (length before))) (bs ++ [bk]))).
Proof.
  intros Hall Hans Hmis.
  induction Hall as [|p b ps bs [Hansp Hmisp] _ IH]; intros acc w.
  - simpl. pose proof (run_problem_cases fuel clock pk acc w) as Hp.
    rewrite Hans in Hp. simpl in Hp. rewrite Hmis in Hp.
    unfold bind. rewrite Hp. rewrite <- !(assoc_L (++)). simpl.
    do 2 f_equal. lia.
  - simpl. pose proof (run_problem_cases fuel clock p acc w) as Hp.
    apply mismatch_false in Hmisp.
    rewrite Hansp in Hp. simpl in Hp. rewrite Hmisp in Hp.
    rewrite (bind_Ret _ _ _ _ _ Hp), IH. simpl.
    rewrite <- !(assoc_L (++)). simpl.
    do 2 f_equal. lia.
Qed.

Lemma length_elapsed_times clock t n : length (elapsed_times clock t n) = n.
Proof. revert t. induction n as [|n IH]; intros t; simpl; [done | by rewrite IH]. Qed.

Lemma length_zip3 {A} (f : problem → Q → bool → A) ps es bs :
  length es = length ps → length bs = length ps →
  length (zip3 f ps es bs) = length ps.
Proof.
  revert es bs. induction ps as [|p ps IH]; intros es bs He Hb;
    destruct es as [|e es], bs as [|b bs]; simpl in *; try done.
  rewrite IH; [done | lia | lia].
Qed.

Lemma zip3_record_rows ps es bs :
  length es = length ps → length bs = length ps →
  Forall2 row_of ps (zip3 record ps es bs).
Proof.
  revert es bs. induction ps as [|p ps IH]; intros es bs He Hb;
    destruct es as [|e es], bs as [|b bs]; simpl in *; try done.
  constructor; [by exists e, b | apply IH; lia].
Qed.

Lemma elapsed_times_nonneg clock t n :
  (∀ k, (clock k <= clock (S k))%Q) →
  Forall (λ e, (0 <= e)%Q) (elapsed_times clock t n).
Proof.
  intros Hmono. revert t. induction n as [|n IH]; intros t; simpl; constructor.
  - rewrite <- (Qplus_opp_r (clock t)). unfold Qminus.
    apply Qplus_le_compat; [apply Hmono | apply Qle_refl].
  - apply IH.
Qed.

Lemma run_ksat_cases_unfold fuel clock ps w :
  run_ksat_cases fuel clock ps w
  = match run_loop fuel clock ps (mkResults [] [] [])
            (mkWorld (ticks w) (stdout w) [HeaderRow header]) with
    | Ret acc w' => Ret (sizes acc, times acc, answers acc) w'
    | Raise e w' => Raise e w'
    | Diverge => Diverge
    end.
Proof. reflexivity. Qed.

(** ** Theorems about the batch runner *)

(** C1, as the code has it: the variable count of every Result Record, and
    of the returned [sizes], is the count that the instance's header
    declares ([problem['num_vars']]); the count that the engine derives
    from the literals is not reported. The records written are those of
    the instances processed, in order. *)
Theorem records_carry_declared_count fuel clock (ps : list problem) (w : world) :
  match run_ksat_cases fuel clock ps w with
  | Ret (szs, _, _) w' =>
      szs = num_vars <$> ps
      ∧ ∃ rows, csv w' = HeaderRow header :: rows ∧ Forall2 row_of ps rows
  | Raise _ w' =>
      ∃ processed rows,
        processed `prefix_of` ps
        ∧ csv w' = HeaderRow header :: rows ∧ Forall2 row_of processed rows
  | Diverge => True
  end.
Proof.
  rewrite run_ksat_cases_unfold.
  pose proof (run_loop_rows fuel clock ps (mkResults [] [] [])
                (mkWorld (ticks w) (stdout w) [HeaderRow header])) as H.
  destruct (run_loop _ _ _ _ _) as [acc w'|e w'|]; [| | done].
  - destruct H as (Hs & rows & Hc & Hr). split; [done |]. by exists rows.
  - destruct H as (processed & rows & Hpre & Hc & Hr). by exists processed, rows.
Qed.

(** C1, as stated, fails: on a problem whose header declares five
    variables and whose only clause is [[1]], the runner returns the size
    5 and writes 5 into the record, while the engine derives 1. *)
Lemma record_count_differs_from_engine_count :
  (∀ S (s : S),
     IncrementalkSAT.init (clauses five_declared) s
     = Ret (IncrementalkSAT.mk [[1]] 1) s)
  ∧ run_ksat_cases 2 (λ _, 0%Q) [five_declared] (mkWorld 0 [] [])
    = Ret ([5], [(0 - 0)%Q], [true])
        (mkWorld 2 [StatusLine 5 1 (0 - 0)%Q true None]
           [HeaderRow header; ResultRow 5 1 (0 - 0)%Q true None])
  ∧ 5 ≠ IncrementalkSAT.num_vars (IncrementalkSAT.mk [[1]] 1).
Proof. split; [done |]. split; [reflexivity | done]. Qed.

(** C4: one turn of the loop ends in [sys.exit] iff the solver returned a
    boolean that contradicts the expected label of the instance; the exit
    ends the whole loop, whatever instances remain; and with an unknown or
    absent label every answer of the solver is accepted. *)
Theorem abort_iff_contradiction fuel clock (p : problem) (acc : results) (w : world) :
  ((∃ msg w', run_problem fuel clock p acc w = Raise (SystemExit msg) w')
   ↔ ∃ b, solver_answer fuel (clauses p) = Some b
          ∧ contradicts b (expectation_of (satisfiability p)))
  ∧ (∀ msg w' rest,
       run_problem fuel clock p acc w = Raise (SystemExit msg) w' →
       run_loop fuel clock (p :: rest) acc w = Raise (SystemExit msg) w')
  ∧ (∀ b,
       solver_answer fuel (clauses p) = Some b →
       expectation_of (satisfiability p) = Unknown →
       ∃ acc' w', run_problem fuel clock p acc w = Ret acc' w').
Proof.
  pose proof (run_problem_cases fuel clock p acc w) as Hp.
  split; [| split].
  - destruct (solver_answer fuel (clauses p)) as [b|]; simpl in Hp.
    + destruct (mismatch b (satisfiability p)) eqn:Hm; rewrite Hp.
      * split; [intros _ | by eexists _, _].
        exists b. split; [done | by apply mismatch_true].
      * split; [by intros (msg & w' & ?) |].
        intros (b' & Hb & Hc). injection Hb as <-.
        apply mismatch_true in Hc. congruence.
    + split; [| by intros (b & ? & _)].
      intros (msg & w' & Hr). destruct Hp as [Hp|Hp]; rewrite Hp in Hr; discriminate.
  - intros msg w' rest Hr. simpl. unfold bind. by rewrite Hr.
  - intros b Hb Hu. rewrite Hb in Hp. simpl in Hp.
    assert (Hm : mismatch b (satisfiability p) = false).
    { apply mismatch_false. rewrite Hu. intros [[_ ?]|[_ ?]]; discriminate. }
    rewrite Hm in Hp. by eexists _, _.
Qed.

(** C5: when instance [k] is the first whose solver result contradicts its
    label, the instances before it being answered consistently, the runner
    exits while processing instance [k]: it has read the clock twice for
    each of the instances [1..k] and for no other, and the output file holds
    the header and exactly [k] Result Records, those of the instances
    [1..k] in input order; nothing is written for a later instance. *)
Theorem runner_stops_at_first_mismatch fuel clock (before after : list problem)
  (pk : problem) (bs : list bool) (bk : bool) (w : world) :
  Forall2 (consistent fuel) before bs →
  solver_answer fuel (clauses pk) = Some bk →
  contradicts bk (expectation_of (satisfiability pk)) →
  ∃ msg w' rows,
    run_ksat_cases fuel clock (before ++ pk :: after) w = Raise (SystemExit msg) w'
    ∧ csv w' = HeaderRow header :: rows
    ∧ rows = zip3 record (before ++ [pk])
               (elapsed_times clock (ticks w) (S (length before))) (bs ++ [bk])
    ∧ length rows = S (length before)
    ∧ Forall2 row_of (before ++ [pk]) rows
    ∧ ticks w' = (ticks w + 2 * S (length before))%nat
    ∧ stdout w'
      = stdout w
          ++ zip3 status (before ++ [pk])
               (elapsed_times clock (ticks w) (S (length before))) (bs ++ [bk])
          ++ [MismatchLine bk (satisfiability pk)].
Proof.
  intros Hall Hans Hc. apply mismatch_true in Hc.
  pose proof (Forall2_length _ _ _ Hall) as Hlen.
  eexists _, _, _. rewrite run_ksat_cases_unfold.
  rewrite (run_loop_mismatch fuel clock before after pk bs bk Hall Hans Hc). simpl.
  split; [reflexivity |]. split; [reflexivity |]. split; [reflexivity |].
  assert (Hl1 : length (elapsed_times clock (ticks w) (S (length before)))
                = length (before ++ [pk])).
  { rewrite length_elapsed_times, length_app. simpl. lia. }
  assert (Hl2 : length (bs ++ [bk]) = length (before ++ [pk])).
  { rewrite !length_app. simpl. lia. }
  split; [| split; [| done]].
  - rewrite length_zip3; [rewrite length_app; simpl; lia | done | done].
  - by apply zip3_record_rows.
Qed.

Lemma runner_stops_at_first_mismatch_witness :
  Forall2 (consistent 3) [unit_S] [true] ∧
  solver_answer 3 (clauses contradiction_S) = Some false ∧
  contradicts false
    (expectation_of (satisfiability contradiction_S)) ∧
  ∃ msg w' rows,
    run_ksat_cases 3 (λ _, 0%Q)
      ([unit_S]
         ++ contradiction_S
         :: [five_declared])
      (mkWorld 0 [] [])
    = Raise (SystemExit msg) w'
    ∧ csv w' = HeaderRow header :: rows
    ∧ rows = zip3 record
               ([unit_S]
                  ++ [contradiction_S])
               (elapsed_times (λ _, 0%Q) (ticks (mkWorld 0 [] []))
                  (S (length [unit_S])))
               ([true] ++ [false])
    ∧ length rows = S (length [unit_S])
    ∧ Forall2 row_of
        ([unit_S]
           ++ [contradiction_S]) rows
    ∧ ticks w'
      = (ticks (mkWorld 0 [] [])
         + 2 * S (length [unit_S]))%nat
    ∧ stdout w'
      = stdout (mkWorld 0 [] [])
          ++ zip3 status
               ([unit_S]
                  ++ [contradiction_S])
               (elapsed_times (λ _, 0%Q) (ticks (mkWorld 0 [] []))
                  (S (length [unit_S])))
               ([true] ++ [false])
          ++ [MismatchLine false
                (satisfiability contradiction_S)].
Proof.
  assert (H1 : Forall2 (consistent 3) [unit_S] [true]).
  { constructor; [| constructor]. split; [reflexivity |].
    intros [[_ H]|[H _]]; discriminate. }
  assert (H2 : contradicts false
                 (expectation_of
                    (satisfiability contradiction_S))).
  { right. split; reflexivity. }
  split; [exact H1 |]. split; [reflexivity |]. split; [exact H2 |].
  exact (runner_stops_at_first_mismatch 3 (λ _, 0%Q)
           [unit_S] [five_declared]
           contradiction_S [true] false
           (mkWorld 0 [] []) H1 eq_refl H2).
Defined.

(** C7, as the code has it: when every instance is answered consistently
    with its label, the runner returns three lists as long as the input, in
    input order: the declared sizes, the elapsed times and the answers; and
    when no reading of the clock is lower than the one before, every
    elapsed time is at least zero. *)
Theorem runner_returns_parallel_lists fuel clock (ps : list problem) (bs : list bool)
  (w : world) :
  Forall2 (consistent fuel) ps bs →
  (∀ k, (clock k <= clock (S k))%Q) →
  ∃ szs ts w',
    run_ksat_cases fuel clock ps w = Ret (szs, ts, bs) w'
    ∧ szs = num_vars <$> ps
    ∧ ts = elapsed_times clock (ticks w) (length ps)
    ∧ length szs = length ps ∧ length ts = length ps ∧ length bs = length ps
    ∧ Forall (λ e, (0 <= e)%Q) ts.
Proof.
  intros Hall Hmono. pose proof (Forall2_length _ _ _ Hall) as Hlen.
  eexists _, _, _. rewrite run_ksat_cases_unfold.
  rewrite (run_loop_ok fuel clock ps bs Hall). simpl.
  split; [reflexivity |]. split; [reflexivity |]. split; [reflexivity |].
  split; [by rewrite length_fmap |]. split; [by rewrite length_elapsed_times |].
  split; [done |]. by apply elapsed_times_nonneg.
Qed.

Lemma runner_returns_parallel_lists_witness :
  Forall2 (consistent 3)
    [two_vars_S; five_declared] [true; true] ∧
  (∀ k, ((λ n : nat, inject_Z (Z.of_nat n)) k
         <= (λ n : nat, inject_Z (Z.of_nat n)) (S k))%Q) ∧
  ∃ szs ts w',
    run_ksat_cases 3 (λ n : nat, inject_Z (Z.of_nat n))
      [two_vars_S; five_declared]
      (mkWorld 0 [] [])
    = Ret (szs, ts, [true; true]) w'
    ∧ szs = num_vars
              <$> [two_vars_S; five_declared]
    ∧ ts = elapsed_times (λ n : nat, inject_Z (Z.of_nat n)) (ticks (mkWorld 0 [] []))
             (length [two_vars_S; five_declared])
    ∧ length szs
      = length [two_vars_S; five_declared]
    ∧ length ts
      = length [two_vars_S; five_declared]
    ∧ length [true; true]
      = length [two_vars_S; five_declared]
    ∧ Forall (λ e, (0 <= e)%Q) ts.
Proof.
  assert (H1 : Forall2 (consistent 3)
                 [two_vars_S; five_declared]
                 [true; true]).
  { constructor; [| constructor; [| constructor]].
    - split; [reflexivity |]. intros [[_ H]|[H _]]; discriminate.
    - split; [reflexivity |]. intros [[_ H]|[H _]]; discriminate. }
  assert (H2 : ∀ k, ((λ n : nat, inject_Z (Z.of_nat n)) k
                     <= (λ n : nat, inject_Z (Z.of_nat n)) (S k))%Q).
  { intros k. simpl. unfold Qle. simpl. lia. }
  split; [exact H1 |]. split; [exact H2 |].
  exact (runner_returns_parallel_lists 3 (λ n : nat, inject_Z (Z.of_nat n))
           [two_vars_S; five_declared]
           [true; true] (mkWorld 0 [] []) H1 H2).
Defined.

(** C7, as stated, fails: with no mismatch at all, a clock that is set back
    between the two readings around the search gives a negative elapsed
    time. *)
Lemma elapsed_time_negative_when_clock_set_back :
  Forall2 (consistent 2) [five_declared] [true]
  ∧ ∃ e w',
      run_ksat_cases 2 set_back_clock [five_declared] (mkWorld 0 [] [])
      = Ret ([5], [e], [true]) w'
      ∧ (e < 0)%Q.
Proof.
  split.
  - constructor; [| constructor]. split; [reflexivity |].
    intros [[_ H]|[H _]]; discriminate.
  - eexists _, _. split; [reflexivity | reflexivity].
Qed.


(** ** The satisfaction check on any list *)

Lemma enters_app tr1 tr2 : enters (tr1 ++ tr2) = enters tr1 ++ enters tr2.
Proof.
  induction tr1 as [|[d snap|d r snap|i snap] tr1 IH]; simpl; [done | | done | done].
  by rewrite IH.
Qed.

Lemma truthy_assigned (a : list bool) : truthy <$> (Some <$> a) = a.
Proof. induction a as [|x a IH]; [done |]. rewrite !fmap_cons, IH. by destruct x. Qed.

Section AnyList.
Import IncrementalkSAT.
Variable buf : list pyval.

Lemma getitem_any tr i :
  0 <= i < Z.of_nat (length buf) →
  ∃ v, buf !! Z.to_nat i = Some v ∧
    getitem i (mkHeap buf tr) = Ret v (mkHeap buf (Read i buf :: tr)).
Proof.
  intros Hi.
  destruct (lookup_lt_is_Some_2 buf (Z.to_nat i)) as [v Hv]; [lia |].
  exists v. split; [done |].
  unfold getitem; simpl. rewrite py_index_nonneg by done. by rewrite Hv.
Qed.

Lemma getitem_out_of_range tr i :
  Z.of_nat (length buf) <= i → getitem i (mkHeap buf tr) = Raise IndexError (mkHeap buf tr).
Proof.
  intros Hi. unfold getitem, py_index; simpl.
  rewrite !bool_decide_eq_false_2 by lia. done.
Qed.

Lemma literal_holds_any tr lit :
  Z.abs lit <= Z.of_nat (length buf) →
  ∃ new, literal_holds lit (mkHeap buf tr)
         = Ret (lit_value (truthy <$> buf) lit) (mkHeap buf (new ++ tr))
       ∧ enters new = [].
Proof.
  intros Hb. unfold literal_holds, lit_value.
  destruct (bool_decide_reflect (lit > 0)) as [Hp|Hp];
    [| destruct (bool_decide_reflect (lit < 0)) as [Hn|Hn]].
  - destruct (getitem_any tr (lit - 1)) as (v & Hv & Hg); [lia |].
    exists [Read (lit - 1) buf]. split; [| done].
    rewrite (bind_Ret _ _ _ _ _ Hg), list_lookup_fmap, Hv. done.
  - destruct (getitem_any tr (Z.abs lit - 1)) as (v & Hv & Hg); [lia |].
    exists [Read (Z.abs lit - 1) buf]. split; [| done].
    rewrite (bind_Ret _ _ _ _ _ Hg), list_lookup_fmap, Hv. done.
  - by exists [].
Qed.

Lemma literal_holds_out_of_range tr lit :
  Z.of_nat (length buf) < Z.abs lit →
  literal_holds lit (mkHeap buf tr) = Raise IndexError (mkHeap buf tr).
Proof.
  intros Hb. unfold literal_holds.
  destruct (bool_decide_reflect (lit > 0)) as [Hp|Hp];
    [| destruct (bool_decide_reflect (lit < 0)) as [Hn|Hn]]; [| | lia].
  - unfold bind. by rewrite getitem_out_of_range by lia.
  - unfold bind. by rewrite getitem_out_of_range by lia.
Qed.

Lemma any_literal_any tr clause :
  (∀ lit, lit ∈ clause → Z.abs lit <= Z.of_nat (length buf)) →
  ∃ new, any_literal clause (mkHeap buf tr)
         = Ret (existsb (lit_value (truthy <$> buf)) clause) (mkHeap buf (new ++ tr))
       ∧ enters new = [].
Proof.
  revert tr. induction clause as [|lit rest IH]; intros tr Hb; simpl.
  - by exists [].
  - destruct (literal_holds_any tr lit) as (new1 & H1 & He1); [apply Hb; left |].
    rewrite (bind_Ret _ _ _ _ _ H1).
    destruct (lit_value (truthy <$> buf) lit); simpl.
    + by exists new1.
    + destruct (IH (new1 ++ tr)) as (new2 & H2 & He2);
        [intros l Hl; apply Hb; by right |].
      exists (new2 ++ new1). rewrite <- (assoc_L (++)). split; [done |].
      by rewrite enters_app, He1, He2.
Qed.

Lemma all_clauses_any tr cls :
  (∀ clause lit, clause ∈ cls → lit ∈ clause → Z.abs lit <= Z.of_nat (length buf)) →
  ∃ new, all_clauses cls (mkHeap buf tr)
         = Ret (check (truthy <$> buf) cls) (mkHeap buf (new ++ tr))
       ∧ enters new = [].
Proof.
  revert tr. induction cls as [|clause rest IH]; intros tr Hb; simpl.
  - by exists [].
  - destruct (any_literal_any tr clause) as (new1 & H1 & He1);
      [intros l Hl; apply (Hb clause); [left | done] |].
    rewrite (bind_Ret _ _ _ _ _ H1).
    destruct (existsb (lit_value (truthy <$> buf)) clause); simpl.
    + destruct (IH (new1 ++ tr)) as (new2 & H2 & He2);
        [intros c l Hc Hl; apply (Hb c); [by right | done] |].
      exists (new2 ++ new1). rewrite <- (assoc_L (++)). split; [done |].
      by rewrite enters_app, He1, He2.
    + by exists new1.
Qed.

End AnyList.

(** ** Further theorems about the engine *)

(** X1: [get_num_vars] raises [ValueError] exactly when no clause holds a
    literal, and returns the greatest absolute literal value otherwise. *)
Theorem get_num_vars_outcome (cls : list (list Z)) :
  (concat cls = [] ∧
   ∀ S (s : S), IncrementalkSAT.get_num_vars cls s = Raise ValueError s)
  ∨ (concat cls ≠ [] ∧
     ∃ n, max_magnitude cls n ∧ 0 <= n ∧
       ∀ S (s : S), IncrementalkSAT.get_num_vars cls s = Ret n s).
Proof.
  destruct (decide (concat cls = [])) as [He|Hne].
  - left. split; [done |]. intros S s.
    unfold IncrementalkSAT.get_num_vars. by rewrite He.
  - right. split; [done |].
    destruct (init_has_literal cls Hne) as (n & Hinit & Hmax).
    exists n. split; [done |]. split; [by eapply max_magnitude_nonneg |].
    intros S s. specialize (Hinit S s).
    unfold IncrementalkSAT.init, bind in Hinit.
    destruct (IncrementalkSAT.get_num_vars cls s) as [m s'|e s'|]; try discriminate.
    unfold ret in Hinit. by injection Hinit as -> ->.
Qed.

(** X2: on a list long enough for every literal, [is_satisfied] returns
    without changing the list, and an unassigned entry counts as False: the
    answer is that of the total assignment read through truthiness. *)
Theorem is_satisfied_reads_none_as_false (self : IncrementalkSAT.t) (buf : list pyval)
  (tr : list event) :
  (∀ clause lit, clause ∈ IncrementalkSAT.clauses self → lit ∈ clause →
     Z.abs lit <= Z.of_nat (length buf)) →
  ∃ tr',
    IncrementalkSAT.is_satisfied self (mkHeap buf tr)
    = Ret (check (truthy <$> buf) (IncrementalkSAT.clauses self)) (mkHeap buf tr')
    ∧ (check (truthy <$> buf) (IncrementalkSAT.clauses self) = true
       ↔ satisfies (truthy <$> buf) (IncrementalkSAT.clauses self)).
Proof.
  intros Hb. destruct (all_clauses_any buf tr _ Hb) as (new & Hrun & _).
  exists (new ++ tr). split; [exact Hrun | apply check_true].
Qed.

Lemma is_satisfied_reads_none_as_false_witness :
  (∀ clause lit,
     clause ∈ IncrementalkSAT.clauses (IncrementalkSAT.mk [[-1]; [2]] 2) →
     lit ∈ clause → Z.abs lit <= Z.of_nat (length [None; Some true])) ∧
  ∃ tr',
    IncrementalkSAT.is_satisfied (IncrementalkSAT.mk [[-1]; [2]] 2)
      (mkHeap [None; Some true] [])
    = Ret (check (truthy <$> [None; Some true])
             (IncrementalkSAT.clauses (IncrementalkSAT.mk [[-1]; [2]] 2)))
        (mkHeap [None; Some true] tr')
    ∧ (check (truthy <$> [None; Some true])
         (IncrementalkSAT.clauses (IncrementalkSAT.mk [[-1]; [2]] 2)) = true
       ↔ satisfies (truthy <$> [None; Some true])
           (IncrementalkSAT.clauses (IncrementalkSAT.mk [[-1]; [2]] 2))).
Proof.
  assert (H : ∀ clause lit,
            clause ∈ IncrementalkSAT.clauses (IncrementalkSAT.mk [[-1]; [2]] 2) →
            lit ∈ clause → Z.abs lit <= Z.of_nat (length [None; Some true])).
  { simpl. intros c l Hc Hl.
    apply elem_of_cons in Hc as [->|Hc].
    - apply elem_of_cons in Hl as [->|Hl]; [simpl; lia | by apply elem_of_nil in Hl].
    - apply elem_of_cons in Hc as [->|Hc]; [| by apply elem_of_nil in Hc].
      apply elem_of_cons in Hl as [->|Hl]; [simpl; lia | by apply elem_of_nil in Hl]. }
  split; [exact H |].
  exact (is_satisfied_reads_none_as_false (IncrementalkSAT.mk [[-1]; [2]] 2)
           [None; Some true] [] H).
Defined.

(** X3: the check of a single literal raises [IndexError] exactly when the
    literal's magnitude exceeds the length of the list; otherwise it
    returns. Python's negative indices are never used. *)
Theorem is_satisfied_index_error (lit n : Z) (buf : list pyval) (tr : list event) :
  (IncrementalkSAT.is_satisfied (IncrementalkSAT.mk [[lit]] n) (mkHeap buf tr)
   = Raise IndexError (mkHeap buf tr)
   ↔ Z.of_nat (length buf) < Z.abs lit)
  ∧ (Z.abs lit <= Z.of_nat (length buf) →
     ∃ tr', IncrementalkSAT.is_satisfied (IncrementalkSAT.mk [[lit]] n) (mkHeap buf tr)
            = Ret (lit_value (truthy <$> buf) lit) (mkHeap buf tr')).
Proof.
  assert (Hin : Z.abs lit <= Z.of_nat (length buf) →
            ∃ tr', IncrementalkSAT.is_satisfied (IncrementalkSAT.mk [[lit]] n)
                     (mkHeap buf tr)
                   = Ret (lit_value (truthy <$> buf) lit) (mkHeap buf tr')).
  { intros Hb. destruct (literal_holds_any buf tr lit Hb) as (new & Hrun & _).
    exists (new ++ tr). unfold IncrementalkSAT.is_satisfied. simpl.
    unfold bind. rewrite Hrun.
    by destruct (lit_value (truthy <$> buf) lit). }
  split; [| exact Hin]. split.
  - intros Hr. destruct (Z.lt_ge_cases (Z.of_nat (length buf)) (Z.abs lit)) as [|Hle];
      [done |].
    destruct (Hin Hle) as (tr' & Hrun). congruence.
  - intros Hb. unfold IncrementalkSAT.is_satisfied. simpl.
    unfold bind. by rewrite literal_holds_out_of_range.
Qed.

(** ** The order and the cost of the search *)

Section Order.
Import IncrementalkSAT.
Variable self : t.
Variable N : nat.
Hypothesis Hnum : num_vars self = Z.of_nat N.
Hypothesis Hbound :
  ∀ clause lit, clause ∈ clauses self → lit ∈ clause → Z.abs lit <= Z.of_nat N.

Lemma backtrack_order (k : nat) :
  ∀ fuel p tr, (k < fuel)%nat → (length p + k = N)%nat →
  ∃ b new buf',
    backtrack fuel self (Z.of_nat (length p)) (mkHeap (shape p k) tr)
    = Ret b (mkHeap buf' (new ++ tr))
    ∧ (S k <= length (enters new))%nat
    ∧ (length (enters new) + 1 <= 2 ^ S k)%nat
    ∧ if b then
        ∃ q, length q = k ∧ buf' = Some <$> (p ++ q)
             ∧ check (p ++ q) (clauses self) = true
             ∧ ∀ q', length q' = k → check (p ++ q') (clauses self) = true →
                 tried_first q q'
      else
        buf' = shape p k
        ∧ (∀ q', length q' = k → check (p ++ q') (clauses self) = false)
        ∧ (length (enters new) + 1 = 2 ^ S k)%nat
        ∧ count_occ Z.eq_dec (enters new) (Z.of_nat N) = (2 ^ k)%nat.
Proof.
  induction k as [|k IH]; intros fuel p tr Hf Hl; (destruct fuel as [|fuel]; [lia |]).
  - simpl backtrack. rewrite shape_full.
    unfold bind at 1. unfold log at 1. simpl assignment. simpl trace.
    rewrite bool_decide_eq_true_2 by lia.
    destruct (all_clauses_any (Some <$> p) (Enter (Z.of_nat (length p)) (Some <$> p) :: tr)
                (clauses self)) as (new & Hrun & Hent).
    { intros c l Hc Hlit. specialize (Hbound c l Hc Hlit). rewrite length_fmap. lia. }
    rewrite truthy_assigned in Hrun.
    unfold is_satisfied. rewrite (bind_Ret _ _ _ _ _ Hrun).
    exists (check p (clauses self)),
      (Leave (Z.of_nat (length p)) (check p (clauses self)) (Some <$> p)
         :: new ++ [Enter (Z.of_nat (length p)) (Some <$> p)]),
      (Some <$> p).
    assert (He : enters (Leave (Z.of_nat (length p)) (check p (clauses self)) (Some <$> p)
                           :: new ++ [Enter (Z.of_nat (length p)) (Some <$> p)])
                 = [Z.of_nat (length p)]).
    { simpl. by rewrite enters_app, Hent. }
    rewrite He. split; [| split; [simpl; lia | split; [simpl; lia |]]].
    + unfold bind, log, ret; simpl. do 3 f_equal. by rewrite <- ?(assoc_L (++)).
    + destruct (check p (clauses self)) eqn:Hc.
      * exists []. rewrite (right_id_L [] (++)). split; [done |]. split; [done |].
        split; [done |]. intros q' Hq' _. apply nil_length_inv in Hq'. by subst q'.
      * split; [done |]. split.
        -- intros q' Hq'. apply nil_length_inv in Hq'. subst q'.
           by rewrite (right_id_L [] (++)).
        -- split; [done |]. simpl.
           destruct (Z.eq_dec (Z.of_nat (length p)) (Z.of_nat N)); [done | lia].
  - simpl backtrack.
    unfold bind at 1. unfold log at 1. simpl assignment. simpl trace.
    rewrite bool_decide_eq_false_2 by lia.
    remember (Enter (Z.of_nat (length p)) (shape p (S k))) as e0 eqn:He0.
    pose proof (Nat.pow_succ_r' 2 k) as Hp1.
    pose proof (Nat.pow_succ_r' 2 (S k)) as Hp2.
    assert (Hlen : ∀ x : bool, Z.of_nat (length (p ++ [x])) = Z.of_nat (length p) + 1).
    { intros x. rewrite length_app. simpl. lia. }
    assert (Hent0 : enters [e0] = [Z.of_nat (length p)]) by (by subst e0).
    assert (Hcnt0 : count_occ Z.eq_dec [Z.of_nat (length p)] (Z.of_nat N) = 0%nat).
    { simpl. destruct (Z.eq_dec (Z.of_nat (length p)) (Z.of_nat N)); [lia | done]. }
    change (shape p (S k)) with ((Some <$> p) ++ None :: replicate k None).
    destruct (IH fuel (p ++ [true]) (e0 :: tr))
      as (b1 & new1 & buf1 & Hrun1 & Hlo1 & Hhi1 & Hres1);
      [lia | rewrite length_app; simpl; lia |].
    rewrite Hlen, shape_snoc in Hrun1.
    unfold bind at 1. unfold bind at 1.
    rewrite setitem_middle. rewrite (bind_Ret _ _ _ _ _ Hrun1).
    destruct b1.
    { destruct Hres1 as (q1 & Hq1 & -> & Hc1 & Hmin1).
      exists true, (Leave (Z.of_nat (length p)) true (Some <$> (p ++ [true]) ++ q1)
                      :: new1 ++ [e0]), (Some <$> (p ++ [true]) ++ q1).
      assert (He : length (enters (Leave (Z.of_nat (length p)) true
                                     (Some <$> (p ++ [true]) ++ q1) :: new1 ++ [e0]))
                   = S (length (enters new1))).
      { simpl. rewrite enters_app, Hent0, length_app. simpl. lia. }
      rewrite He.
      split; [| split; [lia | split; [lia |]]].
      - unfold bind, log, ret; simpl. do 3 f_equal. by rewrite <- ?(assoc_L (++)).
      - exists (true :: q1). split; [simpl; lia |].
        rewrite <- !(assoc_L (++)) in *. simpl in *.
        split; [done |]. split; [done |].
        intros [|[] q'] Hq' Hc'; simpl; [done | | left; split; reflexivity].
        right. split; [done |].
        apply Hmin1; [simpl in Hq'; lia | by rewrite <- (assoc_L (++))]. }
    destruct Hres1 as (-> & Hnone1 & Hall1 & Hleaf1). rewrite shape_snoc.
    destruct (IH fuel (p ++ [false]) (new1 ++ e0 :: tr))
      as (b2 & new2 & buf2 & Hrun2 & Hlo2 & Hhi2 & Hres2);
      [lia | rewrite length_app; simpl; lia |].
    rewrite Hlen, shape_snoc in Hrun2.
    rewrite (bind_Ret _ _ _ _ _ (setitem_middle _ _ _ _ _)).
    rewrite (bind_Ret _ _ _ _ _ Hrun2).
    destruct b2.
    { destruct Hres2 as (q2 & Hq2 & -> & Hc2 & Hmin2).
      exists true, (Leave (Z.of_nat (length p)) true (Some <$> (p ++ [false]) ++ q2)
                      :: new2 ++ new1 ++ [e0]), (Some <$> (p ++ [false]) ++ q2).
      assert (He : length (enters (Leave (Z.of_nat (length p)) true
                                     (Some <$> (p ++ [false]) ++ q2)
                                     :: new2 ++ new1 ++ [e0]))
                   = (length (enters new2) + length (enters new1) + 1)%nat).
      { simpl. rewrite !enters_app, Hent0, !length_app. simpl. lia. }
      rewrite He.
      split; [| split; [lia | split; [lia |]]].
      - unfold bind, log, ret; simpl. do 3 f_equal. by rewrite <- ?(assoc_L (++)).
      - exists (false :: q2). split; [simpl; lia |].
        rewrite <- !(assoc_L (++)) in *. simpl in *.
        split; [done |]. split; [done |].
        intros [|[] q'] Hq' Hc'; simpl; [done | |].
        + specialize (Hnone1 q'). rewrite <- (assoc_L (++)) in Hnone1. simpl in Hnone1.
          rewrite Hnone1 in Hc'; [done | simpl in Hq'; lia].
        + right. split; [done |].
          apply Hmin2; [simpl in Hq'; lia | by rewrite <- (assoc_L (++))]. }
    destruct Hres2 as (-> & Hnone2 & Hall2 & Hleaf2). rewrite shape_snoc.
    rewrite (bind_Ret _ _ _ _ _ (setitem_middle _ _ _ _ _)).
    exists false, (Leave (Z.of_nat (length p)) false (shape p (S k))
                     :: new2 ++ new1 ++ [e0]), (shape p (S k)).
    assert (He : enters (Leave (Z.of_nat (length p)) false (shape p (S k))
                           :: new2 ++ new1 ++ [e0])
                 = enters new2 ++ enters new1 ++ [Z.of_nat (length p)]).
    { simpl. by rewrite !enters_app, Hent0. }
    rewrite He, !length_app. simpl length.
    split; [| split; [lia | split; [lia |]]].
    + unfold bind, log, ret; simpl. do 3 f_equal. by rewrite <- ?(assoc_L (++)).
    + split; [done |]. split; [| split; [lia |]].
      * intros [|[] q'] Hq'; [done | |]; simpl in Hq'.
        -- specialize (Hnone1 q'). rewrite <- (assoc_L (++)) in Hnone1.
           apply Hnone1. lia.
        -- specialize (Hnone2 q'). rewrite <- (assoc_L (++)) in Hnone2.
           apply Hnone2. lia.
      * rewrite !count_occ_app, Hleaf1, Hleaf2, Hcnt0. lia.
Qed.

End Order.

Lemma bounded_intro (cls : list (list Z)) (n : Z) :
  0 <= n → forallb (forallb (λ l, Z.abs l <=? n)) cls = true →
  bounded (IncrementalkSAT.mk cls n).
Proof.
  intros Hn Hall. split; [done |]. simpl. intros c l Hc Hl.
  rewrite forallb_forall in Hall. apply list_elem_of_In in Hc.
  specialize (Hall c Hc). rewrite forallb_forall in Hall.
  apply list_elem_of_In in Hl. specialize (Hall l Hl). lia.
Qed.

Lemma bounded_order self fuel :
  bounded self →
  (Z.to_nat (IncrementalkSAT.num_vars self) < fuel)%nat →
  ∃ b new buf',
    IncrementalkSAT.search_run fuel self = Ret b (mkHeap buf' new)
    ∧ (S (Z.to_nat (IncrementalkSAT.num_vars self)) <= length (enters new))%nat
    ∧ (length (enters new) + 1 <= 2 ^ S (Z.to_nat (IncrementalkSAT.num_vars self)))%nat
    ∧ if b then
        ∃ q, length q = Z.to_nat (IncrementalkSAT.num_vars self)
             ∧ buf' = Some <$> q
             ∧ check q (IncrementalkSAT.clauses self) = true
             ∧ ∀ q', length q' = Z.to_nat (IncrementalkSAT.num_vars self) →
                 check q' (IncrementalkSAT.clauses self) = true → tried_first q q'
      else
        buf' = replicate (Z.to_nat (IncrementalkSAT.num_vars self)) None
        ∧ (∀ q', length q' = Z.to_nat (IncrementalkSAT.num_vars self) →
             check q' (IncrementalkSAT.clauses self) = false)
        ∧ (length (enters new) + 1
           = 2 ^ S (Z.to_nat (IncrementalkSAT.num_vars self)))%nat
        ∧ count_occ Z.eq_dec (enters new) (IncrementalkSAT.num_vars self)
          = (2 ^ Z.to_nat (IncrementalkSAT.num_vars self))%nat.
Proof.
  intros [Hn Hb] Hf.
  set (N := Z.to_nat (IncrementalkSAT.num_vars self)) in *.
  assert (HN : IncrementalkSAT.num_vars self = Z.of_nat N) by (unfold N; lia).
  destruct (backtrack_order self N HN) with (k := N) (fuel := fuel) (p := @nil bool)
    (tr := @nil event) as (b & new & buf' & Hrun & Hlo & Hhi & Hres); [| done | done |].
  { intros c l Hc Hl. rewrite <- HN. by apply (Hb c). }
  exists b, new, buf'. rewrite (right_id_L [] (++)) in Hrun.
  unfold IncrementalkSAT.search_run, IncrementalkSAT.fresh. fold N.
  split; [exact Hrun |]. split; [done |]. split; [done |].
  destruct b; [exact Hres |]. rewrite <- HN in Hres. exact Hres.
Qed.

(** ** Further theorems about the search *)

(** X4: when the search of a bounded engine succeeds, the working list
    holds a satisfying total assignment, and it is the first one in the
    order of the search (True before False, lowest variable first); when
    it fails, the list is all unassigned again and no total assignment
    satisfies the clauses. *)
Theorem search_leaves_first_model (self : IncrementalkSAT.t) (fuel : nat) :
  bounded self →
  (Z.to_nat (IncrementalkSAT.num_vars self) < fuel)%nat →
  ∃ b h,
    IncrementalkSAT.search_run fuel self = Ret b h
    ∧ if b then
        ∃ a, assignment h = Some <$> a
             ∧ Z.of_nat (length a) = IncrementalkSAT.num_vars self
             ∧ satisfies a (IncrementalkSAT.clauses self)
             ∧ ∀ a', Z.of_nat (length a') = IncrementalkSAT.num_vars self →
                 satisfies a' (IncrementalkSAT.clauses self) → tried_first a a'
      else
        assignment h = replicate (Z.to_nat (IncrementalkSAT.num_vars self)) None
        ∧ ¬ satisfiable (IncrementalkSAT.num_vars self) (IncrementalkSAT.clauses self).
Proof.
  intros Hb Hf. pose proof Hb as [Hn _].
  destruct (bounded_order self fuel Hb Hf) as (b & new & buf' & Hrun & _ & _ & Hres).
  exists b, (mkHeap buf' new). split; [done |]. simpl. destruct b.
  - destruct Hres as (q & Hq & -> & Hc & Hmin). exists q.
    split; [done |]. split; [lia |]. split; [by apply check_true |].
    intros a' Ha' Hs. apply Hmin; [lia | by apply check_true].
  - destruct Hres as (-> & Hnone & _). split; [done |].
    intros (a & Ha & Hs). apply check_true in Hs.
    rewrite Hnone in Hs; [done | lia].
Qed.

Lemma search_leaves_first_model_witness :
  bounded sat_engine ∧
  (Z.to_nat (IncrementalkSAT.num_vars sat_engine) < 3)%nat ∧
  ∃ b h,
    IncrementalkSAT.search_run 3 sat_engine = Ret b h
    ∧ if b then
        ∃ a, assignment h = Some <$> a
             ∧ Z.of_nat (length a)
               = IncrementalkSAT.num_vars sat_engine
             ∧ satisfies a
                 (IncrementalkSAT.clauses sat_engine)
             ∧ ∀ a', Z.of_nat (length a')
                     = IncrementalkSAT.num_vars sat_engine →
                 satisfies a'
                   (IncrementalkSAT.clauses sat_engine) →
                 tried_first a a'
      else
        assignment h
        = replicate
            (Z.to_nat (IncrementalkSAT.num_vars sat_engine))
            None
        ∧ ¬ satisfiable
              (IncrementalkSAT.num_vars sat_engine)
              (IncrementalkSAT.clauses sat_engine).
Proof.
  assert (Hb : bounded sat_engine)
    by (apply bounded_intro; [lia | reflexivity]).
  split; [exact Hb |]. split; [simpl; lia |].
  apply (search_leaves_first_model sat_engine 3 Hb).
  simpl; lia.
Defined.

(** X5: the search of a bounded engine over [N] variables calls
    [backtrack] at least [N + 1] and at most [2^(N+1) - 1] times; when it
    answers false it has made all [2^(N+1) - 1] calls and checked all [2^N]
    total assignments at the leaves: nothing is pruned. *)
Theorem search_call_count (self : IncrementalkSAT.t) (fuel : nat) :
  bounded self →
  (Z.to_nat (IncrementalkSAT.num_vars self) < fuel)%nat →
  ∃ b h,
    IncrementalkSAT.search_run fuel self = Ret b h
    ∧ (Z.to_nat (IncrementalkSAT.num_vars self) + 1 <= length (enters (trace h)))%nat
    ∧ (length (enters (trace h)) + 1
       <= 2 ^ (Z.to_nat (IncrementalkSAT.num_vars self) + 1))%nat
    ∧ (b = false →
       (length (enters (trace h)) + 1
        = 2 ^ (Z.to_nat (IncrementalkSAT.num_vars self) + 1))%nat
       ∧ count_occ Z.eq_dec (enters (trace h)) (IncrementalkSAT.num_vars self)
         = (2 ^ Z.to_nat (IncrementalkSAT.num_vars self))%nat).
Proof.
  intros Hb Hf.
  destruct (bounded_order self fuel Hb Hf) as (b & new & buf' & Hrun & Hlo & Hhi & Hres).
  exists b, (mkHeap buf' new). split; [done |]. simpl.
  rewrite Nat.add_1_r. split; [lia |]. split; [done |].
  intros ->. by destruct Hres as (_ & _ & Hall & Hleaf).
Qed.

Lemma search_call_count_witness :
  bounded unsat_engine ∧
  (Z.to_nat (IncrementalkSAT.num_vars unsat_engine) < 3)%nat ∧
  ∃ b h,
    IncrementalkSAT.search_run 3 unsat_engine = Ret b h
    ∧ (Z.to_nat (IncrementalkSAT.num_vars unsat_engine) + 1
       <= length (enters (trace h)))%nat
    ∧ (length (enters (trace h)) + 1
       <= 2 ^ (Z.to_nat (IncrementalkSAT.num_vars unsat_engine)
               + 1))%nat
    ∧ (b = false →
       (length (enters (trace h)) + 1
        = 2 ^ (Z.to_nat (IncrementalkSAT.num_vars unsat_engine)
               + 1))%nat
       ∧ count_occ Z.eq_dec (enters (trace h))
           (IncrementalkSAT.num_vars unsat_engine)
         = (2 ^ Z.to_nat
                  (IncrementalkSAT.num_vars unsat_engine))%nat).
Proof.
  assert (Hb : bounded unsat_engine)
    by (apply bounded_intro; [lia | reflexivity]).
  split; [exact Hb |]. split; [simpl; lia |].
  apply (search_call_count unsat_engine 3 Hb).
  simpl; lia.
Defined.

(** ** Further runs of the batch runner *)

Lemma run_problem_no_literal fuel clock p acc w :
  concat (clauses p) = [] → run_problem fuel clock p acc w = Raise ValueError w.
Proof.
  intros He. unfold run_problem, time_solver, bind.
  by rewrite (init_no_literal (clauses p) w He).
Qed.

Lemma run_loop_no_literal fuel clock (before after : list problem) (pk : problem)
  (bs : list bool) :
  Forall2 (consistent fuel) before bs →
  concat (clauses pk) = [] →
  ∀ acc w,
    run_loop fuel clock (before ++ pk :: after) acc w
    = Raise ValueError
        (mkWorld (ticks w + 2 * length before)%nat
           (stdout w
              ++ zip3 status before (elapsed_times clock (ticks w) (length before)) bs)
           (csv w
              ++ zip3 record before (elapsed_times clock (ticks w) (length before)) bs)).
Proof.
  intros Hall He.
  induction Hall as [|p b ps bs [Hansp Hmisp] _ IH]; intros acc w.
  - simpl. unfold bind. rewrite (run_problem_no_literal _ _ _ _ _ He).
    rewrite !(right_id_L [] (++)), Nat.add_0_r. by destruct w.
  - simpl. pose proof (run_problem_cases fuel clock p acc w) as Hp.
    apply mismatch_false in Hmisp.
    rewrite Hansp in Hp. simpl in Hp. rewrite Hmisp in Hp.
    rewrite (bind_Ret _ _ _ _ _ Hp), IH. simpl.
    rewrite <- !(assoc_L (++)). simpl.
    do 2 f_equal. lia.
Qed.

(** Whatever the loop returns, it answered every problem consistently. *)
Lemma run_loop_returns fuel clock (ps : list problem) :
  ∀ acc w acc' w',
    run_loop fuel clock ps acc w = Ret acc' w' →
    ∃ bs,
      Forall2 (consistent fuel) ps bs
      ∧ acc' = mkResults (sizes acc ++ (num_vars <$> ps))
                 (times acc ++ elapsed_times clock (ticks w) (length ps))
                 (answers acc ++ bs)
      ∧ w' = mkWorld (ticks w + 2 * length ps)%nat
               (stdout w ++ zip3 status ps (elapsed_times clock (ticks w) (length ps)) bs)
               (csv w ++ zip3 record ps (elapsed_times clock (ticks w) (length ps)) bs).
Proof.
  induction ps as [|p ps IH]; intros acc w acc' w' Hrun.
  - exists []. split; [constructor |]. rewrite (run_loop_ok fuel clock [] []) in Hrun
      by constructor.
    by injection Hrun as <- <-.
  - simpl in Hrun. pose proof (run_problem_cases fuel clock p acc w) as Hp.
    unfold bind in Hrun.
    destruct (solver_answer fuel (clauses p)) as [b|] eqn:Hans.
    + simpl in Hp. destruct (mismatch b (satisfiability p)) eqn:Hm;
        rewrite Hp in Hrun; [discriminate |].
      apply IH in Hrun as (bs & Hall & Hacc & Hw).
      assert (Hall' : Forall2 (consistent fuel) (p :: ps) (b :: bs)).
      { constructor; [| done]. split; [done | by apply mismatch_false]. }
      exists (b :: bs). split; [done |].
      rewrite Hacc, Hw. simpl. rewrite <- !(assoc_L (++)). simpl.
      split; [done |]. f_equal. lia.
    + destruct Hp as [Hp|Hp]; rewrite Hp in Hrun; discriminate.
Qed.

Lemma select_cons {A} keep (v : A) vs b bs :
  select keep (v :: vs) (b :: bs)
  = if eqb b keep then v :: select keep vs bs else select keep vs bs.
Proof. unfold select. simpl. by destruct (eqb b keep). Qed.

Lemma length_select {A B} keep (vs : list A) (ws : list B) (bs : list bool) :
  length vs = length bs → length ws = length bs →
  length (select keep vs bs) = length (select keep ws bs).
Proof.
  revert vs ws. induction bs as [|b bs IH]; intros [|v vs] [|w ws] Hv Hw;
    try discriminate; [done |].
  rewrite !select_cons. simpl in *.
  destruct (eqb b keep); simpl; rewrite (IH vs ws); try lia; done.
Qed.

Lemma length_select_both {A} (vs : list A) (bs : list bool) :
  length vs = length bs →
  (length (select true vs bs) + length (select false vs bs) = length bs)%nat.
Proof.
  revert vs. induction bs as [|b bs IH]; intros [|v vs] Hv; try discriminate; [done |].
  rewrite !select_cons. simpl in *. specialize (IH vs).
  destruct b; simpl; lia.
Qed.

Lemma returned_run_lengths fuel clock ps w szs ts bs w' :
  run_ksat_cases fuel clock ps w = Ret (szs, ts, bs) w' →
  length szs = length ps ∧ length ts = length ps ∧ length bs = length ps.
Proof.
  rewrite run_ksat_cases_unfold. intros Hrun.
  destruct (run_loop _ _ _ _ _) as [acc v|e v|] eqn:Hloop; try discriminate.
  injection Hrun as <- <- <- <-.
  apply run_loop_returns in Hloop as (bs & Hall & -> & ->). simpl.
  pose proof (Forall2_length _ _ _ Hall) as Hlen.
  split; [by rewrite length_fmap |]. split; [by rewrite length_elapsed_times | done].
Qed.

(** ** Further theorems about the batch runner and the plot *)

(** X6: an instance without any literal makes the run end in the
    [ValueError] of the constructor: the records of the instances before it
    are in the file, nothing is written or printed for it or for a later
    instance, and the clock is not read for it. *)
Theorem runner_raises_on_literal_free_instance fuel clock (before after : list problem)
  (pk : problem) (bs : list bool) (w : world) :
  Forall2 (consistent fuel) before bs →
  concat (clauses pk) = [] →
  ∃ w',
    run_ksat_cases fuel clock (before ++ pk :: after) w = Raise ValueError w'
    ∧ csv w'
      = HeaderRow header
          :: zip3 record before (elapsed_times clock (ticks w) (length before)) bs
    ∧ length (csv w') = S (length before)
    ∧ stdout w'
      = stdout w ++ zip3 status before (elapsed_times clock (ticks w) (length before)) bs
    ∧ ticks w' = (ticks w + 2 * length before)%nat.
Proof.
  intros Hall He. pose proof (Forall2_length _ _ _ Hall) as Hlen.
  eexists. rewrite run_ksat_cases_unfold.
  rewrite (run_loop_no_literal fuel clock before after pk bs Hall He). simpl.
  split; [reflexivity |]. split; [reflexivity |]. split; [| done].
  simpl. rewrite length_zip3; [done | by rewrite length_elapsed_times | done].
Qed.

Lemma runner_raises_on_literal_free_instance_witness :
  Forall2 (consistent 3) [unit_S] [true] ∧
  concat (clauses (mkProblem 0 1 [[]] None)) = [] ∧
  ∃ w',
    run_ksat_cases 3 (λ _, 0%Q) ([unit_S] ++ mkProblem 0 1 [[]] None :: [five_declared])
      (mkWorld 0 [] [])
    = Raise ValueError w'
    ∧ csv w'
      = HeaderRow header
          :: zip3 record [unit_S]
               (elapsed_times (λ _, 0%Q) (ticks (mkWorld 0 [] [])) (length [unit_S]))
               [true]
    ∧ length (csv w') = S (length [unit_S])
    ∧ stdout w'
      = stdout (mkWorld 0 [] [])
          ++ zip3 status [unit_S]
               (elapsed_times (λ _, 0%Q) (ticks (mkWorld 0 [] [])) (length [unit_S]))
               [true]
    ∧ ticks w' = (ticks (mkWorld 0 [] []) + 2 * length [unit_S])%nat.
Proof.
  assert (H1 : Forall2 (consistent 3) [unit_S] [true]).
  { constructor; [| constructor]. split; [reflexivity |].
    intros [[_ H]|[H _]]; discriminate. }
  split; [exact H1 |]. split; [reflexivity |].
  exact (runner_raises_on_literal_free_instance 3 (λ _, 0%Q) [unit_S] [five_declared]
           (mkProblem 0 1 [[]] None) [true] (mkWorld 0 [] []) H1 eq_refl).
Defined.

(** X7: a run that returns certifies every instance: the returned answers
    are the solver's answers on the instances, in order, none of them
    contradicting its label; the three lists are as long as the input, and
    the file holds the header and one record per instance. *)
Theorem returned_run_is_consistent fuel clock (ps : list problem) (w : world)
  (szs : list Z) (ts : list Q) (bs : list bool) (w' : world) :
  run_ksat_cases fuel clock ps w = Ret (szs, ts, bs) w' →
  Forall2 (consistent fuel) ps bs
  ∧ szs = num_vars <$> ps
  ∧ ts = elapsed_times clock (ticks w) (length ps)
  ∧ length szs = length ps ∧ length ts = length ps ∧ length bs = length ps
  ∧ csv w' = HeaderRow header :: zip3 record ps ts bs
  ∧ length (csv w') = S (length ps).
Proof.
  rewrite run_ksat_cases_unfold. intros Hrun.
  destruct (run_loop _ _ _ _ _) as [acc v|e v|] eqn:Hloop; try discriminate.
  injection Hrun as <- <- <- <-.
  apply run_loop_returns in Hloop as (bs & Hall & -> & ->). simpl.
  pose proof (Forall2_length _ _ _ Hall) as Hlen.
  split; [done |]. split; [done |]. split; [done |].
  split; [by rewrite length_fmap |]. split; [by rewrite length_elapsed_times |].
  split; [done |]. split; [done |].
  simpl. rewrite length_zip3; [done | by rewrite length_elapsed_times | done].
Qed.

Lemma returned_run_is_consistent_witness :
  run_ksat_cases 3 (λ _, 0%Q) [two_vars_S; five_declared] (mkWorld 0 [] [])
  = Ret ([2; 5], [(0 - 0)%Q; (0 - 0)%Q], [true; true])
      (mkWorld 4 [status two_vars_S (0 - 0)%Q true; status five_declared (0 - 0)%Q true]
         [HeaderRow header; record two_vars_S (0 - 0)%Q true;
          record five_declared (0 - 0)%Q true])
  ∧ Forall2 (consistent 3) [two_vars_S; five_declared] [true; true].
Proof.
  split; [reflexivity |].
  exact (proj1 (returned_run_is_consistent 3 (λ _, 0%Q) [two_vars_S; five_declared]
                  (mkWorld 0 [] []) _ _ _ _ eq_refl)).
Defined.

(** X8: for three lists of one length, each of the two scatter calls of
    [plot_results] gets as many x as y coordinates, and the two calls
    together plot every instance once. *)
Theorem plot_results_series (szs : list Z) (ts : list Q) (bs : list bool) :
  length szs = length bs → length ts = length bs →
  ∃ sat unsat,
    plot_results szs ts bs = [sat; unsat]
    ∧ length (xs sat) = length (ys sat)
    ∧ length (xs unsat) = length (ys unsat)
    ∧ (length (xs sat) + length (xs unsat) = length bs)%nat
    ∧ length (xs sat) = length (List.filter id bs)
    ∧ legend sat = "Satisfiable"%string ∧ legend unsat = "Unsatisfiable"%string.
Proof.
  intros Hs Ht. eexists _, _. split; [reflexivity |]. simpl.
  split; [by apply length_select |]. split; [by apply length_select |].
  split; [by apply length_select_both |]. split; [| done].
  clear Ht ts. revert szs Hs. induction bs as [|b bs IH]; intros [|v vs] Hv;
    try discriminate; [done |].
  rewrite select_cons. simpl in *. destruct b; simpl; rewrite IH; try lia; done.
Qed.

Lemma plot_results_series_witness :
  length [3; 5; 4] = length [true; false; true] ∧
  length [1%Q; 2%Q; 3%Q] = length [true; false; true] ∧
  ∃ sat unsat,
    plot_results [3; 5; 4] [1%Q; 2%Q; 3%Q] [true; false; true] = [sat; unsat]
    ∧ length (xs sat) = length (ys sat)
    ∧ length (xs unsat) = length (ys unsat)
    ∧ (length (xs sat) + length (xs unsat) = length [true; false; true])%nat
    ∧ length (xs sat) = length (List.filter id [true; false; true])
    ∧ legend sat = "Satisfiable"%string ∧ legend unsat = "Unsatisfiable"%string.
Proof.
  split; [reflexivity |]. split; [reflexivity |].
  exact (plot_results_series [3; 5; 4] [1%Q; 2%Q; 3%Q] [true; false; true]
           eq_refl eq_refl).
Defined.

(** X9: the main program plots exactly when the run returns: then both
    scatter calls get coordinate lists of equal length and every instance
    is plotted once; when the run raises (a mismatch exit or an error) the
    exception passes through and nothing is plotted. *)
Theorem main_plots_after_a_returned_run fuel clock (ps : list problem) (w : world) :
  match run_ksat_cases fuel clock ps w with
  | Ret r w' =>
      ∃ sat unsat,
        main fuel clock ps w = Ret [sat; unsat] w'
        ∧ length (xs sat) = length (ys sat)
        ∧ length (xs unsat) = length (ys unsat)
        ∧ (length (xs sat) + length (xs unsat) = length ps)%nat
  | Raise e w' => main fuel clock ps w = Raise e w'
  | Diverge => main fuel clock ps w = Diverge
  end.
Proof.
  unfold main, bind.
  destruct (run_ksat_cases fuel clock ps w) as [[[szs ts] bs] w'|e w'|] eqn:Hrun;
    [| done | done].
  apply returned_run_lengths in Hrun as (Hs & Ht & Hb).
  eexists _, _. unfold ret. simpl. split; [reflexivity |]. simpl.
  split; [apply length_select; lia |]. split; [apply length_select; lia |].
  rewrite length_select_both; lia.
Qed.


(** ** Runs of the parser *)

Lemma parse_rows_app int rows1 rows2 st :
  parse_rows int (rows1 ++ rows2) st
  = match parse_rows int rows1 st with
    | inl e => inl e
    | inr st' => parse_rows int rows2 st'
    end.
Proof.
  revert st. induction rows1 as [|r rows1 IH]; intros st; simpl; [done |].
  destruct (parse_row int r st) as [e|st']; [done | apply IH].
Qed.

Lemma parse_row_blank int row st : blank row → parse_row int row st = inr st.
Proof. unfold blank, parse_row. by intros ->. Qed.

Lemma parse_row_comment int l row st :
  comment_row l row →
  parse_row int row st = inr (mkParser (parsed st) (collecting st) l (declared st)).
Proof.
  intros (first & rest & Hc & Hs & Hl). unfold parse_row.
  rewrite Hc in *. by rewrite Hs, Hl.
Qed.

Lemma parse_row_problem int nv nc row st :
  problem_row int nv nc row →
  parse_row int row st = inr (mkParser (parsed st) [] (pending st) (Some (nv, nc))).
Proof.
  intros (first & rest & a & b & Hc & Hs & Hp & Ha & Hia & Hb & Hib). unfold parse_row.
  rewrite Hc in *. by rewrite Hs, Hp, Ha, Hia, Hb, Hib.
Qed.

Lemma parse_row_clause int row clause st :
  clause_row int row clause →
  parse_row int row st
  = match declared st with
    | None => inl NoHeader
    | Some (nv, nc) =>
        if bool_decide (Z.of_nat (length (collecting st ++ [clause])) = nc) then
          inr (mkParser (parsed st ++ [mkProblem nv nc (collecting st ++ [clause]) (pending st)])
                 [] None (declared st))
        else inr (mkParser (parsed st) (collecting st ++ [clause]) (pending st) (declared st))
    end.
Proof.
  intros (first & rest & Hc & Hs & Hp & Hcl). unfold parse_row.
  rewrite Hc in *. by rewrite Hs, Hp, Hcl.
Qed.

Lemma parse_row_complete int row st st' :
  parse_row int row st = inr st' →
  Forall complete (parsed st) → Forall complete (parsed st').
Proof.
  unfold parse_row. intros Hrow Hall.
  destruct (cells row) as [|first rest]; [by injection Hrow as <- |].
  destruct (starts_with "c"%char first); [by injection Hrow as <- |].
  destruct (starts_with "p"%char first).
  - destruct ((first :: rest) !! 2%nat) as [a|]; [| done].
    destruct (int a) as [nv|]; [| done].
    destruct ((first :: rest) !! 3%nat) as [b|]; [| done].
    destruct (int b) as [nc|]; [| done]. by injection Hrow as <-.
  - destruct (clause_of int (first :: rest)) as [clause|]; [| done].
    destruct (declared st) as [[nv nc]|]; [| done].
    destruct (bool_decide_reflect
                (Z.of_nat (length (collecting st ++ [clause])) = nc)) as [Hn|Hn];
      injection Hrow as <-; simpl; [| done].
    apply Forall_app_2; [done |]. constructor; [| constructor].
    split; simpl; [done |]. by destruct (collecting st).
Qed.

Lemma parse_rows_complete int rows :
  ∀ st st', parse_rows int rows st = inr st' →
            Forall complete (parsed st) → Forall complete (parsed st').
Proof.
  induction rows as [|r rows IH]; intros st st' Hrun Hall; simpl in Hrun.
  - by injection Hrun as <-.
  - destruct (parse_row int r st) as [e|st1] eqn:Hr; [done |].
    eapply IH; [done |]. by eapply parse_row_complete.
Qed.

(** Blank rows and comment lines leave the clauses collected, the problems
    and the header as they are. *)
Lemma parse_rows_preamble int rows :
  Forall (λ r, blank r ∨ ∃ l, comment_row l r) rows →
  ∀ st, ∃ l, parse_rows int rows st
             = inr (mkParser (parsed st) (collecting st) l (declared st)).
Proof.
  induction 1 as [|r rows Hr _ IH]; intros st; simpl.
  - exists (pending st). by destruct st.
  - destruct Hr as [Hb|[l Hc]].
    + rewrite (parse_row_blank _ _ _ Hb). apply IH.
    + rewrite (parse_row_comment _ _ _ _ Hc).
      destruct (IH (mkParser (parsed st) (collecting st) l (declared st))) as [l' Hl'].
      by exists l'.
Qed.

(** The clause lines of a block, from a state that awaits them. *)
Lemma parse_rows_clauses int nv nc (crows : list (list string)) (cls : list (list Z)) :
  Forall2 (clause_row int) crows cls →
  ∀ st,
    declared st = Some (nv, nc) →
    cls ≠ [] →
    nc = Z.of_nat (length (collecting st) + length cls) →
    parse_rows int crows st
    = inr (mkParser (parsed st ++ [mkProblem nv nc (collecting st ++ cls) (pending st)])
             [] None (Some (nv, nc))).
Proof.
  induction 1 as [|row clause crows cls Hrow Hrest IH]; intros st Hd Hne Hn; [done |].
  simpl. rewrite (parse_row_clause _ _ _ _ Hrow), Hd.
  destruct (bool_decide_reflect
              (Z.of_nat (length (collecting st ++ [clause])) = nc)) as [Hk|Hk].
  - rewrite length_app in Hk. simpl in *.
    assert (cls = []) as -> by (destruct cls; [done | simpl in *; lia]).
    by inversion Hrest.
  - rewrite length_app in Hk. simpl in *.
    destruct cls as [|c cls]; [simpl in *; lia |].
    rewrite IH; simpl; [| done | done | rewrite length_app; simpl in *; lia].
    by rewrite <- (assoc_L (++)).
Qed.

Lemma parse_rows_block int p rows :
  block int p rows →
  ∀ st, parse_rows int rows st
        = inr (mkParser (parsed st ++ [p]) [] None (Some (num_vars p, num_clauses p))).
Proof.
  intros (crow & prow & crows & -> & Hc & Hp & Hcl & Hn & Hne) st. simpl.
  rewrite (parse_row_comment _ _ _ _ Hc), (parse_row_problem _ _ _ _ _ Hp).
  rewrite (parse_rows_clauses int (num_vars p) (num_clauses p) crows (clauses p) Hcl);
    simpl; [by destruct p | done | done | by rewrite Hn].
Qed.

Lemma parse_rows_blocks int (ps : list problem) (blocks : list (list (list string))) :
  Forall2 (block int) ps blocks →
  ∀ st, ∃ st', parse_rows int (concat blocks) st = inr st'
               ∧ parsed st' = parsed st ++ ps.
Proof.
  induction 1 as [|p rows ps blocks Hb _ IH]; intros st; simpl.
  - exists st. split; [done | by rewrite (right_id_L [] (++))].
  - rewrite parse_rows_app, (parse_rows_block _ _ _ Hb).
    destruct (IH (mkParser (parsed st ++ [p]) [] None (Some (num_vars p, num_clauses p))))
      as (st' & Hrun & Hp).
    exists st'. split; [done |]. rewrite Hp. simpl. by rewrite <- (assoc_L (++)).
Qed.

(** Fewer clause lines than declared: they are collected and no problem is
    saved. *)
Lemma parse_rows_too_few int nv nc (crows : list (list string)) (cls : list (list Z)) :
  Forall2 (clause_row int) crows cls →
  ∀ st,
    declared st = Some (nv, nc) →
    Z.of_nat (length (collecting st) + length cls) < nc →
    parse_rows int crows st
    = inr (mkParser (parsed st) (collecting st ++ cls) (pending st) (Some (nv, nc))).
Proof.
  induction 1 as [|row clause crows cls Hrow Hrest IH]; intros st Hd Hn.
  - simpl. rewrite (right_id_L [] (++)), <- Hd. by destruct st.
  - simpl. rewrite (parse_row_clause _ _ _ _ Hrow), Hd.
    rewrite bool_decide_eq_false_2 by (rewrite length_app; simpl in *; lia).
    rewrite IH; simpl; [| done | rewrite length_app; simpl in *; lia].
    by rewrite <- (assoc_L (++)).
Qed.

(** ** Theorems about the parser *)

(** X10: every problem that [parse_ksat_cnf] returns has exactly as many
    clauses as its problem line declared, and at least one clause. *)
Theorem parsed_problems_complete (int : string → option Z) (rows : list (list string))
  (ps : list problem) :
  parse_ksat_cnf int rows = inr ps → Forall complete ps.
Proof.
  unfold parse_ksat_cnf. intros Hrun.
  destruct (parse_rows int rows (mkParser [] [] None None)) as [e|st] eqn:Hrows;
    [done |].
  injection Hrun as <-.
  apply (parse_rows_complete int rows _ _ Hrows). constructor.
Qed.

(** X11: a row without any non-empty cell is skipped: the parse of a file is
    the parse of the file without that row. *)
Theorem blank_row_is_skipped (int : string → option Z) (rows1 rows2 : list (list string))
  (row : list string) :
  blank row →
  parse_ksat_cnf int (rows1 ++ row :: rows2) = parse_ksat_cnf int (rows1 ++ rows2).
Proof.
  intros Hb. unfold parse_ksat_cnf. rewrite !parse_rows_app.
  destruct (parse_rows int rows1 (mkParser [] [] None None)) as [e|st]; [done |].
  simpl. by rewrite (parse_row_blank _ _ _ Hb).
Qed.

(** X12: a clause line that comes before any problem line ends the parse
    with the error of the unbound [num_clauses], whatever follows. *)
Theorem clause_before_header_fails (int : string → option Z)
  (pre rest : list (list string)) (row : list string) (clause : list Z) :
  Forall (λ r, blank r ∨ ∃ l, comment_row l r) pre →
  clause_row int row clause →
  parse_ksat_cnf int (pre ++ row :: rest) = inl NoHeader.
Proof.
  intros Hpre Hrow. unfold parse_ksat_cnf. rewrite parse_rows_app.
  destruct (parse_rows_preamble int pre Hpre (mkParser [] [] None None)) as [l ->].
  simpl. by rewrite (parse_row_clause _ _ _ _ Hrow).
Qed.

(** X13: a problem line with fewer than four non-empty cells ends the parse
    with an error, [IndexError] for the missing cell or [ValueError] for a
    third cell that is no integer, whatever the state and whatever follows. *)
Theorem short_problem_row_fails (int : string → option Z) (row : list string)
  (rest : list (list string)) (st : parser_state) (first : string) (others : list string) :
  cells row = first :: others →
  starts_with "c"%char first = false → starts_with "p"%char first = true →
  (length (cells row) < 4)%nat →
  parse_rows int (row :: rest) st = inl ShortRow
  ∨ parse_rows int (row :: rest) st = inl BadInt.
Proof.
  intros Hc Hs Hp Hlen. simpl. unfold parse_row. rewrite Hc in *. rewrite Hs, Hp.
  destruct ((first :: others) !! 2%nat) as [a|] eqn:Ha; [| by left].
  destruct (int a) as [nv|]; [| by right].
  destruct ((first :: others) !! 3%nat) as [b|] eqn:Hb; [| by left].
  apply lookup_lt_Some in Hb. lia.
Qed.

(** X14: a file laid out as a sequence of blocks, each a comment line with
    the label, a problem line and the declared number of clause lines,
    parses to exactly the problems of the blocks, in order. *)
Theorem blocks_parse_to_their_problems (int : string → option Z) (ps : list problem)
  (blocks : list (list (list string))) :
  Forall2 (block int) ps blocks →
  parse_ksat_cnf int (concat blocks) = inr ps.
Proof.
  intros Hall. unfold parse_ksat_cnf.
  destruct (parse_rows_blocks int ps blocks Hall (mkParser [] [] None None))
    as (st' & -> & Hp).
  by rewrite Hp.
Qed.

(** X15: a last block with fewer clause lines than its problem line
    declares is dropped without an error: the parse returns the problems of
    the complete blocks before it. *)
Theorem truncated_last_block_is_dropped (int : string → option Z) (ps : list problem)
  (blocks : list (list (list string))) (l : option string) (nv nc : Z)
  (crow prow : list string) (crows : list (list string)) (cls : list (list Z)) :
  Forall2 (block int) ps blocks →
  comment_row l crow → problem_row int nv nc prow →
  Forall2 (clause_row int) crows cls →
  Z.of_nat (length cls) < nc →
  parse_ksat_cnf int (concat blocks ++ crow :: prow :: crows) = inr ps.
Proof.
  intros Hall Hc Hp Hcl Hn. unfold parse_ksat_cnf. rewrite parse_rows_app.
  destruct (parse_rows_blocks int ps blocks Hall (mkParser [] [] None None))
    as (st' & -> & Hps).
  simpl. rewrite (parse_row_comment _ _ _ _ Hc), (parse_row_problem _ _ _ _ _ Hp).
  rewrite (parse_rows_too_few int nv nc crows cls Hcl); simpl; [| done | done].
  by rewrite Hps.
Qed.


Lemma sample_rows_block : block decimal_int two_vars_S sample_rows.
Proof.
  exists ["c"; "1"; "2"; "S"]%string, ["p"; "cnf"; "2"; "2"]%string,
    [["1"; "2"; "0"]; ["-1"; "-2"; "0"; ""]]%string.
  split; [reflexivity |]. split; [by eexists _, _ |].
  split; [by eexists _, _, _, _ |].
  split; [| done].
  constructor; [by eexists _, _ |]. constructor; [by eexists _, _ | constructor].
Qed.

Lemma parsed_problems_complete_witness :
  parse_ksat_cnf decimal_int sample_rows = inr [two_vars_S]
  ∧ Forall complete [two_vars_S].
Proof.
  split; [reflexivity |].
  exact (parsed_problems_complete decimal_int sample_rows [two_vars_S] eq_refl).
Defined.

Lemma blank_row_is_skipped_witness :
  blank blank_row
  ∧ parse_ksat_cnf decimal_int (take 2 sample_rows ++ blank_row :: drop 2 sample_rows)
    = parse_ksat_cnf decimal_int (take 2 sample_rows ++ drop 2 sample_rows).
Proof.
  split; [reflexivity |].
  exact (blank_row_is_skipped decimal_int (take 2 sample_rows) (drop 2 sample_rows)
           blank_row eq_refl).
Defined.

Lemma clause_before_header_fails_witness :
  Forall (λ r, blank r ∨ ∃ l, comment_row l r) [blank_row; ["c"; "note"]%string]
  ∧ clause_row decimal_int ["1"; "-2"; "0"]%string [1; -2]
  ∧ parse_ksat_cnf decimal_int
      ([blank_row; ["c"; "note"]%string] ++ ["1"; "-2"; "0"]%string :: sample_rows)
    = inl NoHeader.
Proof.
  assert (H1 : Forall (λ r, blank r ∨ ∃ l, comment_row l r)
                 [blank_row; ["c"; "note"]%string]).
  { constructor; [by left |]. constructor; [| constructor].
    right. exists None. by eexists _, _. }
  assert (H2 : clause_row decimal_int ["1"; "-2"; "0"]%string [1; -2])
    by (by eexists _, _).
  split; [exact H1 |]. split; [exact H2 |].
  exact (clause_before_header_fails decimal_int _ sample_rows _ _ H1 H2).
Defined.

Lemma short_problem_row_fails_witness :
  cells ["p"; "cnf"; ""; "3"]%string = "p"%string :: ["cnf"; "3"]%string
  ∧ starts_with "c"%char "p" = false ∧ starts_with "p"%char "p" = true
  ∧ (length (cells ["p"; "cnf"; ""; "3"]%string) < 4)%nat
  ∧ (parse_rows decimal_int (["p"; "cnf"; ""; "3"]%string :: sample_rows)
       (mkParser [] [] None None) = inl ShortRow
     ∨ parse_rows decimal_int (["p"; "cnf"; ""; "3"]%string :: sample_rows)
         (mkParser [] [] None None) = inl BadInt).
Proof.
  split; [reflexivity |]. split; [reflexivity |]. split; [reflexivity |].
  split; [simpl; lia |].
  apply (short_problem_row_fails decimal_int ["p"; "cnf"; ""; "3"]%string sample_rows
           (mkParser [] [] None None) "p"%string ["cnf"; "3"]%string);
    [reflexivity | reflexivity | reflexivity | simpl; lia].
Defined.

Lemma blocks_parse_to_their_problems_witness :
  Forall2 (block decimal_int) [two_vars_S; two_vars_S] [sample_rows; sample_rows]
  ∧ parse_ksat_cnf decimal_int (concat [sample_rows; sample_rows])
    = inr [two_vars_S; two_vars_S].
Proof.
  assert (H : Forall2 (block decimal_int) [two_vars_S; two_vars_S]
                [sample_rows; sample_rows]).
  { constructor; [apply sample_rows_block |].
    constructor; [apply sample_rows_block | constructor]. }
  split; [exact H |].
  exact (blocks_parse_to_their_problems decimal_int _ _ H).
Defined.

Lemma truncated_last_block_is_dropped_witness :
  Forall2 (block decimal_int) [two_vars_S] [sample_rows]
  ∧ comment_row (Some "U"%string) ["c"; "2"; "1"; "U"]%string
  ∧ problem_row decimal_int 1 2 ["p"; "cnf"; "1"; "2"]%string
  ∧ Forall2 (clause_row decimal_int) [["1"; "0"]%string] [[1]]
  ∧ Z.of_nat (length [[1]]) < 2
  ∧ parse_ksat_cnf decimal_int
      (concat [sample_rows]
         ++ ["c"; "2"; "1"; "U"]%string :: ["p"; "cnf"; "1"; "2"]%string
         :: [["1"; "0"]%string])
    = inr [two_vars_S].
Proof.
  assert (H1 : Forall2 (block decimal_int) [two_vars_S] [sample_rows])
    by (constructor; [apply sample_rows_block | constructor]).
  assert (H2 : comment_row (Some "U"%string) ["c"; "2"; "1"; "U"]%string)
    by (by eexists _, _).
  assert (H3 : problem_row decimal_int 1 2 ["p"; "cnf"; "1"; "2"]%string)
    by (by eexists _, _, _, _).
  assert (H4 : Forall2 (clause_row decimal_int) [["1"; "0"]%string] [[1]])
    by (constructor; [by eexists _, _ | constructor]).
  assert (H5 : Z.of_nat (length [[1]]) < 2) by (simpl; lia).
  split; [exact H1 |]. split; [exact H2 |]. split; [exact H3 |].
  split; [exact H4 |]. split; [exact H5 |].
  exact (truncated_last_block_is_dropped decimal_int _ _ _ _ _ _ _ _ _ H1 H2 H3 H4 H5).
Defined.
